(** * medi: the storage / search consistency layer

    A shallow embedding of [src/db.rs], [src/search.rs] and the command
    arms of [run] in [src/lib.rs] that drive them.

    - The sled tree is a [gmap string Value]; its ordered iteration is the
      map's entries sorted by key.
    - The tantivy index is the list of committed documents; an
      [IndexWriter] is the list of operations buffered since it was opened,
      applied in order by [commit].
    - Every fallible primitive (a [?] on a sled or tantivy call) records an
      [Event] in the trace and consumes one bit of the fault oracle
      [faults]: [true] makes that primitive return its error with no effect
      (an exhausted oracle means no further faults).
    - [Utc::now()] reads the clock [clock] at [ticks] and advances [ticks].
    - Rust panics (a failed [copy_from_slice]) are the [Panic] outcome. *)

From stdpp Require Import base gmap strings list sorting pretty.
From Stdlib Require Import ZArith Lia.

Open Scope Z_scope.

(* ------------------------------------------------------------------ *)
(** ** Data model ([note.rs], [task.rs], [error.rs]) *)

Record Note := mkNote {
  key : string;
  title : string;
  tags : list string;
  content : string;
  created_at : Z;
  modified_at : Z
}.

Inductive TaskStatus := Open | Prio | Done.

(** [Task.created_at] is renamed [task_created_at]: Rocq projections
    share one name space. [id] is a u64. *)
Record Task := mkTask {
  id : Z;
  note_key : string;
  description : string;
  status : TaskStatus;
  task_created_at : Z
}.

(** The constructors of [AppError] that this layer produces. The payload
    of [Sled] and [Tantivy] names the primitive that failed. *)
Inductive AppError :=
| Sled (op : string)
| Database (msg : string)
| SerdeJson
| Io
| KeyNotFound (k : string)
| KeyExists (k : string)
| Tantivy (op : string)
| TaskNotFound (tid : Z).

(** A value stored in sled is the byte string some writer put there:
    [serde_json::to_vec] of a note or of a task, or the raw counter bytes.
    [serde_json::from_slice::<Note>] succeeds only on a note's JSON: a
    task's JSON lacks the fields [key], [title], [content], [modified_at],
    and 8 little-endian counter bytes are not a JSON object. *)
Inductive Value :=
| JsonNote (n : Note)
| JsonTask (t : Task)
| RawBytes (bs : list Z).

Definition note_from_slice (v : Value) : option Note :=
  match v with JsonNote n => Some n | _ => None end.

Definition task_from_slice (v : Value) : option Task :=
  match v with JsonTask t => Some t | _ => None end.

(** The raw bytes handed to an [update_and_fetch] closure. A JSON text of
    a note or a task is longer than 8 bytes (it spells its field names),
    which is all the closure's [copy_from_slice] depends on. *)
Definition value_bytes (v : Value) : option (list Z) :=
  match v with RawBytes bs => Some bs | _ => None end.

(** [u64::to_le_bytes] / [u64::from_le_bytes]. *)
Fixpoint to_le_bytes_n (n : nat) (x : Z) : list Z :=
  match n with
  | O => []
  | S n' => x mod 256 :: to_le_bytes_n n' (x / 256)
  end.

Definition to_le_bytes (x : Z) : list Z := to_le_bytes_n 8 x.

Fixpoint from_le_bytes (bs : list Z) : Z :=
  match bs with
  | [] => 0
  | b :: bs' => b + 256 * from_le_bytes bs'
  end.

Definition u64_modulus : Z := 2 ^ 64.

(** [old_id + 1] on u64, as a release build computes it (wrapping). *)
Definition u64_succ (x : Z) : Z := (x + 1) mod u64_modulus.

(** ** The search document ([search.rs], [SCHEMA]) *)

Record Doc := mkDoc {
  doc_key : string;
  doc_title : string;
  doc_content : string;
  doc_tags : list string
}.

Inductive IndexOp :=
| OpAdd (d : Doc)
| OpDeleteTerm (k : string)
| OpDeleteAll.

(** Pending operations of an open [IndexWriter], oldest first. *)
Abbreviation IndexWriter := (list IndexOp).

Definition apply_op (idx : list Doc) (op : IndexOp) : list Doc :=
  match op with
  | OpAdd d => idx ++ [d]
  | OpDeleteTerm k => filter (fun d => doc_key d <> k) idx
  | OpDeleteAll => []
  end.

Definition apply_ops (idx : list Doc) (ops : IndexWriter) : list Doc :=
  foldl apply_op idx ops.

(* ------------------------------------------------------------------ *)
(** ** The world and the primitives *)

Inductive Event :=
| EvContains (k : string)
| EvGet (k : string)
| EvInsert (k : string)
| EvRemove (k : string)
| EvFlush
| EvIterRead (k : string)
| EvUpdate (k : string)
| EvBatchRemove (ks : list string)
| EvWriterOpen
| EvAddDoc (k : string)
| EvDeleteTerm (k : string)
| EvDeleteAll
| EvCommit
| EvReader
| EvSearch
| EvDocFetch
| EvReadInput.

Record World := mkWorld {
  store : gmap string Value;
  index : list Doc;
  faults : list bool;
  clock : nat -> Z;
  ticks : nat;
  trace : list Event   (* most recent first *)
}.

Inductive Res (A : Type) :=
| Ok (a : A)
| Err (e : AppError)
| Panic.
Arguments Ok {A} a.
Arguments Err {A} e.
Arguments Panic {A}.

Definition M (A : Type) := World -> Res A * World.

Definition ret {A} (a : A) : M A := fun w => (Ok a, w).
Definition fail {A} (e : AppError) : M A := fun w => (Err e, w).

Definition bind {A B} (m : M A) (k : A -> M B) : M B :=
  fun w =>
    match m w with
    | (Ok a, w1) => k a w1
    | (Err e, w1) => (Err e, w1)
    | (Panic, w1) => (Panic, w1)
    end.

#[global] Instance M_ret : MRet M := @ret.
#[global] Instance M_bind : MBind M := fun A B k m => bind m k.

Definition with_store (s : gmap string Value) (w : World) : World :=
  mkWorld s (index w) (faults w) (clock w) (ticks w) (trace w).
Definition with_index (i : list Doc) (w : World) : World :=
  mkWorld (store w) i (faults w) (clock w) (ticks w) (trace w).

(** Record [ev], then fail with [e] if the oracle says so. *)
Definition attempt (ev : Event) (e : AppError) : M unit :=
  fun w =>
    let w1 := mkWorld (store w) (index w) (tail (faults w)) (clock w)
                      (ticks w) (ev :: trace w) in
    match faults w with
    | true :: _ => (Err e, w1)
    | _ => (Ok tt, w1)
    end.

Definition modify (f : World -> World) : M unit := fun w => (Ok tt, f w).
Definition gets {A} (f : World -> A) : M A := fun w => (Ok (f w), w).

(** [Utc::now()]. *)
Definition utc_now : M Z :=
  fun w => (Ok (clock w (ticks w)),
            mkWorld (store w) (index w) (faults w) (clock w)
                    (S (ticks w)) (trace w)).

(** sled primitives. *)
Definition sled_contains_key (k : string) : M bool :=
  attempt (EvContains k) (Sled "contains_key") ;;
  gets (fun w => bool_decide (is_Some (store w !! k))).

Definition sled_get (k : string) : M (option Value) :=
  attempt (EvGet k) (Sled "get") ;;
  gets (fun w => store w !! k).

Definition sled_insert (k : string) (v : Value) : M unit :=
  attempt (EvInsert k) (Sled "insert") ;;
  modify (fun w => with_store (<[k := v]> (store w)) w).

Definition sled_remove (k : string) : M unit :=
  attempt (EvRemove k) (Sled "remove") ;;
  modify (fun w => with_store (delete k (store w)) w).

Definition sled_flush : M unit := attempt EvFlush (Sled "flush").

(** sled iterates in ascending byte order of the keys. *)
Definition key_le (a b : string * Value) : Prop := String.leb a.1 b.1 = true.
#[global] Instance key_le_dec : RelDecision key_le.
Proof. intros a b. unfold key_le. apply _. Defined.

Definition sled_entries (s : gmap string Value) : list (string * Value) :=
  merge_sort key_le (map_to_list s).

Definition sled_scan_prefix (p : string) (s : gmap string Value)
  : list (string * Value) :=
  filter (fun kv => String.prefix p kv.1 = true) (sled_entries s).

Definition log (ev : Event) : M unit :=
  modify (fun w => mkWorld (store w) (index w) (faults w) (clock w) (ticks w)
                           (ev :: trace w)).

Definition lift {A} (r : Res A) : M A := fun w => (r, w).

(** [Tree::update_and_fetch]: single-threaded, the closure runs once on
    the current value; [Some v] stores [v], [None] removes the key. *)
Definition sled_update_and_fetch (k : string)
    (f : option Value -> Res (option Value)) : M (option Value) :=
  attempt (EvUpdate k) (Sled "update_and_fetch") ;;
  ((fun w =>
    match f (store w !! k) with
    | Ok (Some v) => (Ok (Some v), with_store (<[k := v]> (store w)) w)
    | Ok None => (Ok None, with_store (delete k (store w)) w)
    | Err e => (Err e, w)
    | Panic => (Panic, w)
    end) : M (option Value)).

(** [Tree::apply_batch] of removals. *)
Definition sled_apply_batch_remove (ks : list string) : M unit :=
  attempt (EvBatchRemove ks) (Sled "apply_batch") ;;
  modify (fun w => with_store (foldl (fun s k => delete k s) (store w) ks) w).

(** tantivy primitives. [get_field] on the fixed [SCHEMA] always finds
    the field, so it is not a failure point. *)
Definition index_writer : M IndexWriter :=
  attempt EvWriterOpen (Tantivy "writer") ;; mret [].

Definition writer_delete_all_documents (wr : IndexWriter) : M IndexWriter :=
  attempt EvDeleteAll (Tantivy "delete_all_documents") ;;
  mret (wr ++ [OpDeleteAll]).

Definition writer_commit (wr : IndexWriter) : M unit :=
  attempt EvCommit (Tantivy "commit") ;;
  modify (fun w => with_index (apply_ops (index w) wr) w).

(* ------------------------------------------------------------------ *)
(** ** [search.rs] *)

Definition note_doc (note : Note) : Doc :=
  mkDoc (key note) (title note) (content note) (tags note).

Definition add_note_to_index (note : Note) (wr : IndexWriter)
  : M IndexWriter :=
  attempt (EvAddDoc (key note)) (Tantivy "add_document") ;;
  mret (wr ++ [OpAdd (note_doc note)]).

(** [IndexWriter::delete_term] returns an opstamp, it cannot fail. *)
Definition delete_note_from_index (k : string) (wr : IndexWriter)
  : M IndexWriter :=
  log (EvDeleteTerm k) ;; mret (wr ++ [OpDeleteTerm k]).

(* ------------------------------------------------------------------ *)
(** ** [db.rs] *)

Definition key_exists (k : string) : M bool := sled_contains_key k.

(** [serde_json::to_vec] cannot fail on a [Note]. *)
Definition save_note (note : Note) : M unit :=
  sled_insert (key note) (JsonNote note) ;;
  sled_flush ;;
  mret tt.

Definition save_note_with_index (note : Note) : M unit :=
  save_note note ;;
  wr ← index_writer ;
  wr ← delete_note_from_index (key note) wr ;
  wr ← add_note_to_index note wr ;
  writer_commit wr.

Definition delete_note (k : string) : M unit :=
  present ← sled_contains_key k ;
  if negb present then fail (KeyNotFound k) else
  sled_remove k ;;
  sled_flush ;;
  mret tt.

Definition delete_note_with_index (k : string) : M unit :=
  delete_note k ;;
  wr ← index_writer ;
  wr ← delete_note_from_index k wr ;
  writer_commit wr.

Definition get_note (k : string) : M Note :=
  v ← sled_get k ;
  match v with
  | None => fail (KeyNotFound k)
  | Some v =>
      match note_from_slice v with
      | Some n => mret n
      | None => fail SerdeJson
      end
  end.

(** The [.values().map(..).collect()] of [get_all_notes]: each item of the
    iterator is a [Result]; [collect] stops at the first error. *)
Fixpoint collect_notes (es : list (string * Value)) : M (list Note) :=
  match es with
  | [] => mret []
  | (k, v) :: es' =>
      attempt (EvIterRead k) (Sled "iter") ;;
      match note_from_slice v with
      | None => fail SerdeJson
      | Some n => ns ← collect_notes es' ; mret (n :: ns)
      end
  end.

(** [db.iter()]: every entry of the tree. *)
Definition get_all_notes : M (list Note) :=
  es ← gets (fun w => sled_entries (store w)) ;
  collect_notes es.

Definition task_key (tid : Z) : string := "tasks/" +:+ pretty (Z.to_N tid).

Definition save_task (task : Task) : M unit :=
  sled_insert (task_key (id task)) (JsonTask task) ;;
  sled_flush ;;
  mret tt.

Fixpoint collect_tasks (es : list (string * Value)) : M (list Task) :=
  match es with
  | [] => mret []
  | (k, v) :: es' =>
      attempt (EvIterRead k) (Sled "iter") ;;
      match task_from_slice v with
      | None => fail SerdeJson
      | Some t => ts ← collect_tasks es' ; mret (t :: ts)
      end
  end.

Definition get_all_tasks : M (list Task) :=
  es ← gets (fun w => sled_scan_prefix "tasks/" (store w)) ;
  collect_tasks es.

Fixpoint collect_keys (es : list (string * Value)) : M (list string) :=
  match es with
  | [] => mret []
  | (k, _) :: es' =>
      attempt (EvIterRead k) (Sled "iter") ;;
      ks ← collect_keys es' ; mret (k :: ks)
  end.

Definition delete_all_tasks : M nat :=
  es ← gets (fun w => sled_scan_prefix "tasks/" (store w)) ;
  keys_to_delete ← collect_keys es ;
  sled_apply_batch_remove keys_to_delete ;;
  sled_flush ;;
  mret (length keys_to_delete).

Definition TASK_COUNTER_KEY : string := "__counter__/tasks".

(** [buf.copy_from_slice(bytes); u64::from_le_bytes(buf)] with an 8-byte
    [buf]: panics unless the slice has length 8. *)
Definition copy_from_slice8 (v : Value) : Res Z :=
  match value_bytes v with
  | Some bytes => if decide (length bytes = 8%nat) then Ok (from_le_bytes bytes)
                  else Panic
  | None => Panic
  end.

(** The closure passed to [update_and_fetch]. *)
Definition counter_closure (old_value : option Value) : Res (option Value) :=
  let old_id :=
    match old_value with
    | Some bytes => copy_from_slice8 bytes
    | None => Ok 0
    end in
  match old_id with
  | Ok old_id =>
      let new_id := u64_succ old_id in
      Ok (Some (RawBytes (to_le_bytes new_id)))
  | Err e => Err e
  | Panic => Panic
  end.

Definition get_next_task_id : M Z :=
  new_id_bytes ← sled_update_and_fetch TASK_COUNTER_KEY counter_closure ;
  match new_id_bytes with
  | Some ivec => lift (copy_from_slice8 ivec)
  | None => fail (Database "Failed to update task counter")
  end.

Definition reset_task_counter : M unit :=
  sled_insert TASK_COUNTER_KEY (RawBytes (to_le_bytes 0)) ;;
  sled_flush ;;
  mret tt.

(* ------------------------------------------------------------------ *)
(** ** Command arms of [run] ([lib.rs]) *)

(** [str::trim] on the ASCII white space ([char::is_whitespace] below
    U+0080: tab, line feed, vertical tab, form feed, carriage return,
    space). *)
Definition is_ws (c : Ascii.ascii) : bool :=
  let n := Ascii.nat_of_ascii c in
  (n =? 32)%nat || ((9 <=? n)%nat && (n <=? 13)%nat).

Fixpoint trim_start (s : string) : string :=
  match s with
  | EmptyString => EmptyString
  | String c s' => if is_ws c then trim_start s' else s
  end.

Definition string_rev (s : string) : string :=
  String.string_of_list_ascii (rev (String.list_ascii_of_string s)).

Definition trim (s : string) : string :=
  string_rev (trim_start (string_rev (trim_start s))).

(** Text obtained from outside the store (stdin, or the editor through a
    temporary file); [None] is an I/O error of that step. *)
Definition read_input (input : option string) : M string :=
  log EvReadInput ;;
  match input with
  | Some s => mret s
  | None => fail Io
  end.

(** [Commands::New]. [message] is [-m]; [input] is what stdin or the
    editor yields when there is no [-m]. *)
Definition new_cmd (k : string) (message : option string)
    (input : option string) (title_opt : option string) (tag : list string)
  : M unit :=
  key_present ← key_exists k ;
  if (key_present : bool) then fail (KeyExists k) else
  content ← match message with
            | Some message_content => mret message_content
            | None => read_input input
            end ;
  if decide (trim content = EmptyString) then mret tt else
  created ← utc_now ;
  modified ← utc_now ;
  save_note_with_index
    (mkNote k (default k title_opt) tag content created modified).

(** The [--add-tag] loop: push each tag not yet present. *)
Definition add_tags (tags0 add_tag : list string) : list string * bool :=
  foldl (fun acc tag =>
           if decide (tag ∈ acc.1) then acc else (acc.1 ++ [tag], true))
        (tags0, false) add_tag.

(** [tags.retain(|tag| !rm_tag.contains(tag))]. *)
Definition retain_tags (tags0 rm_tag : list string) : list string :=
  filter (fun tag => tag ∉ rm_tag) tags0.

Definition set_tags (n : Note) (ts : list string) : Note :=
  mkNote (key n) (title n) ts (content n) (created_at n) (modified_at n).
Definition set_content (n : Note) (c : string) : Note :=
  mkNote (key n) (title n) (tags n) c (created_at n) (modified_at n).
Definition set_modified_at (n : Note) (t : Z) : Note :=
  mkNote (key n) (title n) (tags n) (content n) (created_at n) t.

(** [Commands::Edit]. [edited] is the content read back from the editor's
    temporary file. *)
Definition edit_cmd (k : string) (add_tag rm_tag : list string)
    (edited : option string) : M unit :=
  existing_note ← get_note k ;
  let '(tags1, modified1) := add_tags (tags existing_note) add_tag in
  let tags2 := retain_tags tags1 rm_tag in
  let modified := modified1 || negb (length tags2 =? length tags1)%nat in
  let existing_note := set_tags existing_note tags2 in
  if modified then
    now ← utc_now ;
    save_note_with_index (set_modified_at existing_note now)
  else
    updated_content ← read_input edited ;
    if decide (trim updated_content <> trim (content existing_note)) then
      now ← utc_now ;
      save_note_with_index
        (set_modified_at (set_content existing_note updated_content) now)
    else mret tt.

Fixpoint add_all_to_index (ns : list Note) (wr : IndexWriter)
  : M IndexWriter :=
  match ns with
  | [] => mret wr
  | n :: ns' => wr' ← add_note_to_index n wr ; add_all_to_index ns' wr'
  end.

(** [Commands::Reindex]. *)
Definition reindex_cmd : M unit :=
  all_notes ← get_all_notes ;
  wr ← index_writer ;
  wr ← writer_delete_all_documents wr ;
  wr ← add_all_to_index all_notes wr ;
  writer_commit wr.

(** [Commands::Get]: with [--tag], the notes having at least one of the
    tags; otherwise [db::get_note] on each key, stopping at the first
    error. *)
Fixpoint get_notes (keys : list string) : M (list Note) :=
  match keys with
  | [] => mret []
  | k :: keys' => n ← get_note k ; ns ← get_notes keys' ; mret (n :: ns)
  end.

Definition has_any_tag (tag : list string) (n : Note) : bool :=
  existsb (fun t => bool_decide (t ∈ tag)) (tags n).

Definition get_cmd (keys tag : list string) : M (list Note) :=
  if negb (bool_decide (tag = [])) then
    all_notes ← get_all_notes ;
    mret (filter (fun n => has_any_tag tag n = true) all_notes)
  else get_notes keys.

(** [Regex::is_match] of the pattern [\[\[<escaped key>\]\]]: with
    [regex::escape] the pattern is the literal [[[key]]], so a match is an
    occurrence of that text anywhere in the content. ([Regex::new] only
    fails on patterns beyond the size limit of the regex crate, far above
    any note key.) *)
Fixpoint is_match_literal (pat s : string) : bool :=
  String.prefix pat s ||
  match s with
  | EmptyString => false
  | String _ s' => is_match_literal pat s'
  end.

Definition link_pattern (k : string) : string := "[[" +:+ k +:+ "]]".

(** [Commands::Backlinks]: the keys of the other notes linking to [k]. *)
Definition backlinks_cmd (k : string) : M (list string) :=
  all_notes ← get_all_notes ;
  mret (map key (filter (fun n => key n <> k /\
                          is_match_literal (link_pattern k) (content n) = true)
                        all_notes)).

(** [TaskCommands::Add]: the note must exist; the struct literal then
    evaluates [get_next_task_id()?] before [Utc::now()]. *)
Definition task_add_cmd (nk desc : string) : M unit :=
  _ ← get_note nk ;
  tid ← get_next_task_id ;
  now ← utc_now ;
  save_task (mkTask tid nk desc Open now).

(** [tasks.into_iter().find(|t| t.id == task_id)]. *)
Fixpoint find_task (tid : Z) (ts : list Task) : option Task :=
  match ts with
  | [] => None
  | t :: ts' => if Z.eqb (id t) tid then Some t else find_task tid ts'
  end.

Definition set_status (t : Task) (s : TaskStatus) : Task :=
  mkTask (id t) (note_key t) (description t) s (task_created_at t).

(** [TaskCommands::Done] ([s = Done]) and [TaskCommands::Prio]
    ([s = Prio]). *)
Definition task_set_status_cmd (s : TaskStatus) (tid : Z) : M unit :=
  tasks ← get_all_tasks ;
  match find_task tid tasks with
  | Some t => save_task (set_status t s)
  | None => fail (TaskNotFound tid)
  end.

(** The [handle_import] closure of [Commands::Import] for one file: the
    note is written with [db::save_note], without the search index. *)
Definition handle_import (k content0 : string) (overwrite : bool) : M unit :=
  note_exists ← key_exists k ;
  if note_exists && negb overwrite then mret tt else
  created ← utc_now ;
  modified ← utc_now ;
  save_note (mkNote k k [] content0 created modified).

(** The directory loop of [Commands::Import]: each [.md] file, given by
    its key (the file stem) and its content ([None] when
    [fs::read_to_string] fails, which aborts the loop with [?]); an error of
    [handle_import] is reported and the loop goes on. *)
Definition catch_import (m : M unit) : M unit :=
  fun w =>
    match m w with
    | (Err _, w1) => (Ok tt, w1)
    | r => r
    end.

Fixpoint import_files (files : list (string * option string)) (overwrite : bool)
  : M unit :=
  match files with
  | [] => mret tt
  | (k, content0) :: files' =>
      content ← (match content0 with Some c => mret c | None => fail Io end) ;
      catch_import (handle_import k content overwrite) ;;
      import_files files' overwrite
  end.

(** [Commands::List]: the comparator of each [SortBy] arm, as the
    relation "[a] may come before [b]"; [slice::sort_by] is a stable sort,
    as [merge_sort] is. *)
Inductive SortBy := SortKey | SortCreated | SortModified.

Definition sort_le (sort_by : SortBy) (a b : Note) : Prop :=
  match sort_by with
  | SortKey => String.leb (key a) (key b) = true
  | SortCreated => created_at b <= created_at a
  | SortModified => modified_at b <= modified_at a
  end.

#[global] Instance sort_le_dec sort_by : RelDecision (sort_le sort_by).
Proof. intros a b. destruct sort_by; simpl; apply _. Defined.

(** The notes in the order they are printed. *)
Definition list_cmd (sort_by : SortBy) : M (list Note) :=
  notes ← get_all_notes ;
  mret (merge_sort (sort_le sort_by) notes).

#[global] Instance TaskStatus_eq_dec : EqDecision TaskStatus.
Proof. solve_decision. Defined.

(** [Commands::Status] without a key: the number of notes, of open tasks
    (not [Done]) and of priority tasks among them. *)
Definition status_overview : M (nat * nat * nat) :=
  notes ← get_all_notes ;
  tasks ← get_all_tasks ;
  let open_tasks := filter (fun t => status t <> Done) tasks in
  let prio_tasks_count := length (filter (fun t => status t = Prio) open_tasks) in
  mret (length notes, length open_tasks, prio_tasks_count).

(** [Commands::Export]: the notes selected for export (the files written
    from them are outside the store). *)
Definition notes_to_export (tag : list string) : M (list Note) :=
  all_notes ← get_all_notes ;
  mret (if negb (bool_decide (tag = []))
        then filter (fun n => forallb (fun t => bool_decide (t ∈ tags n)) tag = true)
                    all_notes
        else all_notes).

(** The store with every entry under the task prefix removed. *)
Definition without_tasks (s : gmap string Value) : gmap string Value :=
  filter (fun kv : string * Value => String.prefix "tasks/" kv.1 = false) s.

Definition no_faults (s : gmap string Value) (i : list Doc) : World :=
  mkWorld s i [] (fun n => Z.of_nat n) 0 [].

Definition run_res {A} (m : M A) (w : World) : Res A := (m w).1.
Definition run_world {A} (m : M A) (w : World) : World := (m w).2.

(* ------------------------------------------------------------------ *)
(** ** Sanity checks on concrete runs *)

(* ------------------------------------------------------------------ *)
(** ** [search_notes] *)

(** The query language and the ranking belong to tantivy: [parse_query]
    is [QueryParser::parse_query] for the given default fields, and
    [score] the engine's relevance of a document for a parsed query
    ([None] when the document does not match). Both are left abstract. *)
Section Search.
Context {Query : Type}.
Context (parse_query : list string -> string -> option Query).
Context (score : Query -> Doc -> option Z).

(** The matching documents of the committed index with their scores and
    addresses (positions in the index). *)
Fixpoint scored_from (qry : Query) (addr : nat) (docs : list Doc)
  : list (Z * nat) :=
  match docs with
  | [] => []
  | d :: ds =>
      match score qry d with
      | Some s => (s, addr) :: scored_from qry (S addr) ds
      | None => scored_from qry (S addr) ds
      end
  end.

(** The order of [TopDocs]: higher score first, ties by document address. *)
Definition rank_le (a b : Z * nat) : Prop :=
  b.1 < a.1 \/ (a.1 = b.1 /\ (a.2 <= b.2)%nat).

#[global] Instance rank_le_dec : RelDecision rank_le.
Proof. intros a b. unfold rank_le. apply _. Defined.

#[global] Instance rank_le_trans : Transitive rank_le.
Proof. intros [a i] [b j] [c l]; unfold rank_le; simpl; lia. Qed.

#[global] Instance rank_le_total : Total rank_le.
Proof. intros [a i] [b j]; unfold rank_le; simpl; lia. Qed.

(** [searcher.search(&query, &TopDocs::with_limit(limit))]. *)
Definition top_docs (limit : nat) (qry : Query) (idx : list Doc)
  : list (Z * nat) :=
  take limit (merge_sort rank_le (scored_from qry 0 idx)).

(** The loop over [top_docs]: fetch each document and push its [key]. *)
Fixpoint fetch_keys (idx : list Doc) (hits : list (Z * nat))
  : M (list string) :=
  match hits with
  | [] => mret []
  | (_, addr) :: hs =>
      attempt EvDocFetch (Tantivy "doc") ;;
      match idx !! addr with
      | None => fail (Tantivy "doc")
      | Some d => ks ← fetch_keys idx hs ; mret (doc_key d :: ks)
      end
  end.

Definition search_notes (query_str : string) : M (list string) :=
  attempt EvReader (Tantivy "reader") ;;
  match parse_query ["title"; "content"; "tags"] query_str with
  | None => fail (Tantivy "parse_query")
  | Some qry =>
      idx ← gets index ;
      attempt EvSearch (Tantivy "search") ;;
      fetch_keys idx (top_docs 10 qry idx)
  end.

End Search.

(** Number of documents of [idx] with key [k]. *)
Definition count_key (k : string) (idx : list Doc) : nat :=
  length (filter (fun d => doc_key d = k) idx).

(** Separate [medi] invocations, one save each. *)
Fixpoint run_saves (notes : list Note) (w : World) : World :=
  match notes with
  | [] => w
  | n :: ns => run_saves ns (run_world (save_note_with_index n) w)
  end.

Definition note_n1 : Note := mkNote "n1" "Alpha" ["x"] "rust systems" 0 0.

Definition world_put_fails : World :=
  mkWorld ∅ [] [true] (fun n => Z.of_nat n) 0 [].

Definition world_with (s : gmap string Value) (i : list Doc) (fs : list bool)
  : World :=
  mkWorld s i fs (fun n => Z.of_nat n) 0 [].

Definition store_n1 : gmap string Value := {[ "n1" := JsonNote note_n1 ]}.

(** A trace event that reads or writes the store entry [TASK_COUNTER_KEY]. *)
Definition touches_counter (ev : Event) : Prop :=
  match ev with
  | EvContains k | EvGet k | EvInsert k | EvRemove k | EvIterRead k
  | EvUpdate k => k = TASK_COUNTER_KEY
  | EvBatchRemove ks => TASK_COUNTER_KEY ∈ ks
  | _ => False
  end.

(** [m] leaves the counter entry as it was and neither reads nor writes it. *)
Definition counter_untouched {A} (m : M A) : Prop :=
  forall w,
    store (run_world m w) !! TASK_COUNTER_KEY = store w !! TASK_COUNTER_KEY /\
    exists evs, trace (run_world m w) = evs ++ trace w /\
      Forall (fun ev => ~ touches_counter ev) evs.

Definition counter_one : Value := RawBytes (to_le_bytes 1).

Definition store_with_counter : gmap string Value :=
  {[ TASK_COUNTER_KEY := counter_one ]}.

(** A sequential schedule: calls of [get_next_task_id] interleaved with
    other operations, each given by its effect on the world. A panic ends
    the process, hence the schedule. *)
Inductive Slot :=
| CallNextId
| OtherOp (f : World -> World).

Fixpoint run_schedule (sched : list Slot) (w : World) : list Z * World :=
  match sched with
  | [] => ([], w)
  | CallNextId :: sched' =>
      match get_next_task_id w with
      | (Ok n, w1) => let '(ids, w2) := run_schedule sched' w1 in (n :: ids, w2)
      | (Err _, w1) => run_schedule sched' w1
      | (Panic, w1) => ([], w1)
      end
  | OtherOp f :: sched' => run_schedule sched' (f w)
  end.

Fixpoint calls (sched : list Slot) : nat :=
  match sched with
  | [] => O
  | CallNextId :: sched' => S (calls sched')
  | OtherOp _ :: sched' => calls sched'
  end.

Definition preserves_counter (sl : Slot) : Prop :=
  match sl with
  | CallNextId => True
  | OtherOp f => forall w, store (f w) !! TASK_COUNTER_KEY = store w !! TASK_COUNTER_KEY
  end.

(** The counter entry holds [m] (an absent entry reads as 0). *)
Definition counter_at (m : Z) (w : World) : Prop :=
  (m = 0 /\ store w !! TASK_COUNTER_KEY = None) \/
  store w !! TASK_COUNTER_KEY = Some (RawBytes (to_le_bytes m)).

Definition schedule_c2 : list Slot :=
  [CallNextId; OtherOp (run_world (save_note_with_index note_n1)); CallNextId].

Definition task_t1 : Task := mkTask 1 "n1" "write tests" Open 5.

(** A store after [medi new n1] and [medi task add n1 ..]: the note, the
    task, and the counter; the note's document is missing from the index. *)
Definition store_note_task : gmap string Value :=
  <[ task_key 1 := JsonTask task_t1 ]>
    (<[ TASK_COUNTER_KEY := RawBytes (to_le_bytes 1) ]> store_n1).

Definition stamped_from (n : Note) (t : Z) (v : option Value) : Prop :=
  exists n', v = Some (JsonNote n') /\ key n' = key n /\
             created_at n' = created_at n /\ modified_at n' = t.

(** A note last modified at time 100, and a wall clock that now reads 50
    (it was set back). *)
Definition note_late : Note := mkNote "n1" "Alpha" ["x"] "rust systems" 0 100.

Definition world_clock_back : World :=
  mkWorld {[ "n1" := JsonNote note_late ]} [note_doc note_late] []
          (fun _ => 50) 0 [].

Definition word_score (qry : string) (d : Doc) : option Z :=
  let n := (if String.eqb (doc_title d) qry then 2 else 0) +
           (if String.eqb (doc_content d) qry then 1 else 0) in
  if Z.eqb n 0 then None else Some n.

Definition parse_word (fields : list string) (q : string) : option string :=
  if String.eqb q EmptyString then None else Some q.

Definition index_three : list Doc :=
  [mkDoc "a" "x" "y" []; mkDoc "b" "y" "y" []; mkDoc "c" "y" "x" []].

Definition note_n1_edit1 : Note := mkNote "n1" "Alpha" ["x"] "rust" 0 1.
Definition note_n1_edit2 : Note := mkNote "n1" "Alpha" ["x"; "y"] "rust" 0 2.

(** A counter holding the largest u64 value. *)
Definition store_counter_max : gmap string Value :=
  {[ TASK_COUNTER_KEY := RawBytes (to_le_bytes (u64_modulus - 1)) ]}.

(** A note saved under the counter key. *)
Definition store_note_at_counter : gmap string Value :=
  {[ TASK_COUNTER_KEY := JsonNote note_n1 ]}.

(** A note whose key is the store key of task 1. *)
Definition note_at_task_key : Note := mkNote "tasks/1" "tasks/1" [] "imported" 0 0.

Example next_id_three :
  run_res (get_next_task_id ;; get_next_task_id ;; get_next_task_id)
          (no_faults ∅ []) = Ok 3.
Proof. vm_compute. reflexivity. Qed.

Example save_then_index :
  index (run_world (save_note_with_index note_n1) (no_faults ∅ []))
  = [note_doc note_n1].
Proof. vm_compute. reflexivity. Qed.

Example delete_missing :
  run_res (delete_note_with_index "n1") (no_faults ∅ []) = Err (KeyNotFound "n1").
Proof. vm_compute. reflexivity. Qed.

(* ------------------------------------------------------------------ *)
(** ** Monad laws used by the proofs *)

Lemma bind_run {A B} (m : M A) (k : A -> M B) w :
  (m ≫= k) w = match m w with
               | (Ok a, w1) => k a w1
               | (Err e, w1) => (Err e, w1)
               | (Panic, w1) => (Panic, w1)
               end.
Proof. reflexivity. Qed.

Lemma bind_err {A B} (m : M A) (k : A -> M B) w e w1 :
  m w = (Err e, w1) -> (m ≫= k) w = (Err e, w1).
Proof. intros H. rewrite bind_run, H. reflexivity. Qed.

Lemma bind_ok {A B} (m : M A) (k : A -> M B) w a w1 :
  m w = (Ok a, w1) -> (m ≫= k) w = k a w1.
Proof. intros H. rewrite bind_run, H. reflexivity. Qed.

Lemma length_to_le_bytes_n n x : length (to_le_bytes_n n x) = n.
Proof. revert x. induction n as [|n IH]; intros x; simpl; auto. Qed.

Lemma from_to_le_bytes_n n x :
  0 <= x < 2 ^ (8 * Z.of_nat n) -> from_le_bytes (to_le_bytes_n n x) = x.
Proof.
  revert x. induction n as [|n IH]; intros x Hx; simpl.
  - simpl in Hx. lia.
  - rewrite IH.
    + pose proof (Z.div_mod x 256). lia.
    + split; [apply Z.div_pos; lia|].
      apply Z.div_lt_upper_bound; [lia|].
      replace (8 * Z.of_nat (S n)) with (8 + 8 * Z.of_nat n) in Hx by lia.
      rewrite Z.pow_add_r in Hx by lia. lia.
Qed.

Lemma from_to_le_bytes x :
  0 <= x < u64_modulus -> from_le_bytes (to_le_bytes x) = x.
Proof. intros H. apply from_to_le_bytes_n. exact H. Qed.

Lemma copy_from_slice8_le x :
  0 <= x < u64_modulus -> copy_from_slice8 (RawBytes (to_le_bytes x)) = Ok x.
Proof.
  intros H. unfold copy_from_slice8, value_bytes.
  destruct (decide _) as [_|Hn]; [|exfalso; apply Hn, length_to_le_bytes_n].
  rewrite from_to_le_bytes by exact H. reflexivity.
Qed.

Lemma u64_succ_range x : 0 <= u64_succ x < u64_modulus.
Proof. unfold u64_succ, u64_modulus. apply Z.mod_pos_bound. lia. Qed.

Lemma counter_closure_some old r :
  counter_closure old = r ->
  r = Panic \/ exists x, r = Ok (Some (RawBytes (to_le_bytes (u64_succ x)))).
Proof.
  intros <-. unfold counter_closure.
  destruct old as [v|]; [destruct (copy_from_slice8 v) eqn:Ec|]; eauto.
  unfold copy_from_slice8 in Ec. destruct (value_bytes v); [|discriminate].
  destruct (decide _); discriminate.
Qed.

Lemma update_and_fetch_counter w r w1 :
  sled_update_and_fetch TASK_COUNTER_KEY counter_closure w = (r, w1) ->
  r = Err (Sled "update_and_fetch") \/ r = Panic \/
  exists x, r = Ok (Some (RawBytes (to_le_bytes (u64_succ x)))) /\
    w1 = with_store (<[TASK_COUNTER_KEY := RawBytes (to_le_bytes (u64_succ x))]>
                       (store w))
           (mkWorld (store w) (index w) (tail (faults w)) (clock w) (ticks w)
                    (EvUpdate TASK_COUNTER_KEY :: trace w)).
Proof.
  unfold sled_update_and_fetch, attempt. rewrite bind_run.
  destruct (faults w) as [|[] fs]; simpl;
    try (intros [= <- <-]; auto; fail);
    (destruct (counter_closure_some (store w !! TASK_COUNTER_KEY) _ eq_refl)
       as [Hc|[x Hc]]; rewrite Hc; intros [= <- <-]; eauto 10).
Qed.

Ltac step_faults :=
  match goal with
  | |- context [match ?fs with [] => _ | _ :: _ => _ end] => destruct fs as [|[] ?]
  | H : context [match ?fs with [] => _ | _ :: _ => _ end] |- _ => destruct fs as [|[] ?]
  end.

(** Unfold the primitives and run the monad, splitting on the fault
    oracle at every fallible step. *)
Ltac munfold :=
  unfold new_cmd, key_exists, read_input, utc_now,
    save_note_with_index, delete_note_with_index, save_note,
    delete_note, get_note, sled_insert, sled_remove, sled_flush,
    sled_contains_key, sled_get, index_writer, writer_commit,
    writer_delete_all_documents, add_note_to_index, delete_note_from_index,
    attempt, modify, gets, log, with_store, with_index, mret, M_ret, ret,
    fail in *.

Ltac mrun := munfold;
  repeat (rewrite ?bind_run in *; simpl in *; try step_faults).

(** The same, rewriting with the store lookup [H] on the way. *)
Ltac mrun_at H := munfold;
  repeat (rewrite ?bind_run in *; simpl in *; rewrite ?H; try step_faults).

Ltac solve_evs evs :=
  exists evs; split; [reflexivity|];
  repeat (constructor; [auto|]); constructor.

Ltac solve_evs_insert_flush k :=
  first [ solve_evs [EvInsert k] | solve_evs [EvFlush; EvInsert k] ].

(* ------------------------------------------------------------------ *)
(** ** C4: a failed store write never reaches the index *)

(** C4: if the Primary Store step of [save_note_with_index] (the [put],
    i.e. [save_note]: insert then flush) fails, the whole call returns
    that same error in the same world as the failed put: no index writer
    is opened, no index operation is attempted (the only new trace events
    are the store's insert and flush) and the committed index is the one
    before the call. *)
Theorem save_put_failure_untouched_index (note : Note) (w : World)
    (e : AppError) :
  run_res (save_note note) w = Err e ->
  save_note_with_index note w = save_note note w /\
  run_res (save_note_with_index note) w = Err e /\
  index (run_world (save_note_with_index note) w) = index w /\
  exists evs, trace (run_world (save_note_with_index note) w) = evs ++ trace w /\
    Forall (fun ev => ev = EvInsert (key note) \/ ev = EvFlush) evs.
Proof.
  intros He. destruct w as [s i fs c t tr].
  unfold run_res, run_world in *.
  mrun; try discriminate; injection He as <-;
    (split; [reflexivity|]); (split; [reflexivity|]); (split; [reflexivity|]);
    solve_evs_insert_flush (key note).
Qed.

Lemma save_put_failure_untouched_index_witness :
  run_res (save_note note_n1) world_put_fails = Err (Sled "insert") /\
  (save_note_with_index note_n1 world_put_fails = save_note note_n1 world_put_fails /\
   run_res (save_note_with_index note_n1) world_put_fails = Err (Sled "insert") /\
   index (run_world (save_note_with_index note_n1) world_put_fails)
     = index world_put_fails /\
   exists evs, trace (run_world (save_note_with_index note_n1) world_put_fails)
                 = evs ++ trace world_put_fails /\
     Forall (fun ev => ev = EvInsert (key note_n1) \/ ev = EvFlush) evs).
Proof.
  split; [vm_compute; reflexivity|].
  apply (save_put_failure_untouched_index note_n1 world_put_fails (Sled "insert")).
  vm_compute. reflexivity.
Defined.

(* ------------------------------------------------------------------ *)
(** ** C10: the [None] branch of [get_next_task_id] is dead *)

(** C10: the closure given to [update_and_fetch] never yields [None], so
    [get_next_task_id] never returns the "Failed to update task counter"
    error: whenever [update_and_fetch] returns a value, the call returns
    [Ok] with a u64 id; its only other outcomes are the store's own error
    and a panic inside the closure (a counter value that is not 8 bytes). *)
Theorem next_task_id_never_counter_failure (w : World) :
  (forall v, run_res (sled_update_and_fetch TASK_COUNTER_KEY counter_closure) w
             = Ok v ->
   exists n, run_res get_next_task_id w = Ok n /\ 0 <= n < u64_modulus) /\
  run_res get_next_task_id w <> Err (Database "Failed to update task counter").
Proof.
  unfold run_res, get_next_task_id. rewrite bind_run.
  destruct (sled_update_and_fetch TASK_COUNTER_KEY counter_closure w)
    as [r w1] eqn:E.
  destruct (update_and_fetch_counter w r w1 E) as [Hr|[Hr|[x [Hr _]]]];
    rewrite Hr; simpl.
  - split; [intros v Hv; discriminate|congruence].
  - split; [intros v Hv; discriminate|congruence].
  - unfold lift. rewrite copy_from_slice8_le by apply u64_succ_range. simpl.
    split; [|congruence]. intros v _. eexists; split; [reflexivity|].
    apply u64_succ_range.
Qed.

(* ------------------------------------------------------------------ *)
(** ** C6: [delete_note_with_index] *)

(** C6 (as the code behaves): for a key absent from the store the call
    never succeeds: it returns [KeyNotFound], or the store's own error when
    the existence check itself fails, and changes neither the store nor
    the index. For a present key it returns [Ok] only after the key has
    been removed from the store and every document with that key from the
    index; if a later step fails (remove, flush, opening the writer,
    commit) its error is returned, the index is unchanged and a store
    removal that already happened is not undone. With no fault at all the
    call returns [Ok]. *)
Theorem delete_with_index_outcomes (k : string) (w : World) :
  (store w !! k = None ->
     (run_res (delete_note_with_index k) w = Err (KeyNotFound k) \/
      run_res (delete_note_with_index k) w = Err (Sled "contains_key")) /\
     store (run_world (delete_note_with_index k) w) = store w /\
     index (run_world (delete_note_with_index k) w) = index w) /\
  (is_Some (store w !! k) ->
     (run_res (delete_note_with_index k) w = Ok tt ->
        store (run_world (delete_note_with_index k) w) = delete k (store w) /\
        index (run_world (delete_note_with_index k) w)
          = filter (fun d => doc_key d <> k) (index w)) /\
     (run_res (delete_note_with_index k) w <> Ok tt ->
        index (run_world (delete_note_with_index k) w) = index w /\
        (store (run_world (delete_note_with_index k) w) = store w \/
         store (run_world (delete_note_with_index k) w) = delete k (store w))) /\
     (faults w = [] -> run_res (delete_note_with_index k) w = Ok tt)).
Proof.
  destruct w as [s i fs c t tr]. unfold run_res, run_world. simpl.
  split.
  - intros Hk. mrun_at Hk; auto.
  - intros [v Hk]. mrun_at Hk;
      repeat split; auto; try discriminate; try congruence.
Qed.

(** C6, as stated, fails: the key "n1" is absent, yet when the store's
    existence check fails the call returns that storage error, not
    [KeyNotFound]. *)
Lemma delete_absent_key_storage_error :
  store (world_with ∅ [] [true]) !! "n1" = None /\
  run_res (delete_note_with_index "n1") (world_with ∅ [] [true])
    = Err (Sled "contains_key") /\
  run_res (delete_note_with_index "n1") (world_with ∅ [] [true])
    <> Err (KeyNotFound "n1").
Proof. vm_compute. split; [reflexivity|]. split; [reflexivity|]. discriminate. Qed.

(* ------------------------------------------------------------------ *)
(** ** C9: [Commands::New] on an existing key *)

(** C9 (as the code behaves): if the key is already in the store, [New]
    fails before reading any content: with [KeyExists] when the existence
    check succeeds, with the store's own error when the check fails. The
    only new trace event is that check; store and index are unchanged, so
    no note is created over an existing key. *)
Theorem new_existing_key_rejected (k : string) (message input title_opt : option string)
    (tag : list string) (w : World) (v : Value) :
  store w !! k = Some v ->
  (run_res (new_cmd k message input title_opt tag) w = Err (KeyExists k) \/
   run_res (new_cmd k message input title_opt tag) w = Err (Sled "contains_key")) /\
  store (run_world (new_cmd k message input title_opt tag) w) = store w /\
  index (run_world (new_cmd k message input title_opt tag) w) = index w /\
  trace (run_world (new_cmd k message input title_opt tag) w)
    = EvContains k :: trace w.
Proof.
  intros Hk. destruct w as [s i fs c t tr]. unfold run_res, run_world.
  simpl in *. mrun_at Hk; auto.
Qed.

Lemma new_existing_key_rejected_witness :
  store (world_with store_n1 [note_doc note_n1] []) !! "n1"
    = Some (JsonNote note_n1) /\
  ((run_res (new_cmd "n1" (Some "again") None None [])
       (world_with store_n1 [note_doc note_n1] []) = Err (KeyExists "n1") \/
    run_res (new_cmd "n1" (Some "again") None None [])
       (world_with store_n1 [note_doc note_n1] []) = Err (Sled "contains_key")) /\
   store (run_world (new_cmd "n1" (Some "again") None None [])
            (world_with store_n1 [note_doc note_n1] []))
     = store (world_with store_n1 [note_doc note_n1] []) /\
   index (run_world (new_cmd "n1" (Some "again") None None [])
            (world_with store_n1 [note_doc note_n1] []))
     = index (world_with store_n1 [note_doc note_n1] []) /\
   trace (run_world (new_cmd "n1" (Some "again") None None [])
            (world_with store_n1 [note_doc note_n1] []))
     = EvContains "n1" :: trace (world_with store_n1 [note_doc note_n1] [])).
Proof.
  split; [vm_compute; reflexivity|].
  apply (new_existing_key_rejected "n1" (Some "again") None None []
           (world_with store_n1 [note_doc note_n1] []) (JsonNote note_n1)).
  vm_compute. reflexivity.
Defined.

(** C9, as stated, fails: "n1" is present, yet when the existence check
    fails [New] returns that storage error, not [KeyExists]. *)
Lemma new_existing_key_storage_error :
  is_Some (store (world_with store_n1 [] [true]) !! "n1") /\
  run_res (new_cmd "n1" (Some "again") None None []) (world_with store_n1 [] [true])
    = Err (Sled "contains_key") /\
  run_res (new_cmd "n1" (Some "again") None None []) (world_with store_n1 [] [true])
    <> Err (KeyExists "n1").
Proof.
  split; [vm_compute; eexists; reflexivity|].
  vm_compute. split; [reflexivity|discriminate].
Qed.

(* ------------------------------------------------------------------ *)
(** ** C3: who reads or writes the counter key *)

Section CounterFrame.

Lemma cu_ret {A} (a : A) : counter_untouched (mret a).
Proof. intros w. split; [reflexivity|]. exists []. auto. Qed.

Lemma cu_fail {A} e : counter_untouched (fail (A:=A) e).
Proof. intros w. split; [reflexivity|]. exists []. auto. Qed.

Lemma cu_gets {A} (f : World -> A) : counter_untouched (gets f).
Proof. intros w. split; [reflexivity|]. exists []. auto. Qed.

Lemma cu_lift {A} (r : Res A) : counter_untouched (lift r).
Proof. intros w. split; [reflexivity|]. exists []. auto. Qed.

Lemma cu_attempt ev e : ~ touches_counter ev -> counter_untouched (attempt ev e).
Proof.
  intros Hev w. unfold run_world, attempt.
  split; [destruct (faults w) as [|[] ?]; reflexivity|].
  exists [ev]. split; [destruct (faults w) as [|[] ?]; reflexivity|].
  constructor; auto.
Qed.

Lemma cu_log ev : ~ touches_counter ev -> counter_untouched (log ev).
Proof.
  intros Hev w. split; [reflexivity|]. exists [ev]. split; [reflexivity|].
  constructor; auto.
Qed.

Lemma cu_utc_now : counter_untouched utc_now.
Proof. intros w. split; [reflexivity|]. exists []. auto. Qed.

(** Bind, with a post-condition [Q] of the first action's result. *)
Lemma cu_bind_post {A B} (m : M A) (k : A -> M B) (Q : A -> Prop) :
  counter_untouched m ->
  (forall w a w1, m w = (Ok a, w1) -> Q a) ->
  (forall a, Q a -> counter_untouched (k a)) ->
  counter_untouched (m ≫= k).
Proof.
  intros Hm HQ Hk w. unfold run_world in *. rewrite bind_run.
  destruct (Hm w) as [Hs [evs1 [Ht Hf]]]. unfold run_world in Hs, Ht.
  destruct (m w) as [[a|e|] w1] eqn:E; simpl in *; [|eauto|eauto].
  destruct (Hk a (HQ _ _ _ E) w1) as [Hs2 [evs2 [Ht2 Hf2]]].
  unfold run_world in Hs2, Ht2.
  split; [congruence|]. exists (evs2 ++ evs1).
  rewrite Ht2, Ht, app_assoc. split; [reflexivity|].
  apply Forall_app; auto.
Qed.

Lemma cu_bind {A B} (m : M A) (k : A -> M B) :
  counter_untouched m -> (forall a, counter_untouched (k a)) ->
  counter_untouched (m ≫= k).
Proof.
  intros Hm Hk. apply (cu_bind_post m k (fun _ => True)); auto.
Qed.

(** Binding on a value read from the world. *)
Lemma cu_bind_gets {A B} (f : World -> A) (k : A -> M B) (P : A -> Prop) :
  (forall w, P (f w)) -> (forall a, P a -> counter_untouched (k a)) ->
  counter_untouched (gets f ≫= k).
Proof.
  intros HP Hk. apply (cu_bind_post _ _ P); [apply cu_gets| |exact Hk].
  intros w a w1 E. unfold gets in E. injection E as <- <-. apply HP.
Qed.

Lemma cu_insert k v : k <> TASK_COUNTER_KEY -> counter_untouched (sled_insert k v).
Proof.
  intros Hk. apply cu_bind; [apply cu_attempt; exact Hk|].
  intros []. intros w. unfold run_world, modify, with_store. simpl.
  split; [by rewrite lookup_insert_ne|]. exists []. auto.
Qed.

Lemma cu_remove k : k <> TASK_COUNTER_KEY -> counter_untouched (sled_remove k).
Proof.
  intros Hk. apply cu_bind; [apply cu_attempt; exact Hk|].
  intros []. intros w. unfold run_world, modify, with_store. simpl.
  split; [by rewrite lookup_delete_ne|]. exists []. auto.
Qed.

Lemma lookup_foldl_delete (s : gmap string Value) ks k :
  k ∉ ks -> foldl (fun s k => delete k s) s ks !! k = s !! k.
Proof.
  revert s. induction ks as [|k' ks IH]; intros s Hk; simpl; [done|].
  rewrite IH by set_solver. apply lookup_delete_ne. set_solver.
Qed.

Lemma cu_batch ks : TASK_COUNTER_KEY ∉ ks ->
  counter_untouched (sled_apply_batch_remove ks).
Proof.
  intros Hk. apply cu_bind; [apply cu_attempt; exact Hk|].
  intros []. intros w. unfold run_world, modify, with_store. simpl.
  split; [by apply lookup_foldl_delete|]. exists []. auto.
Qed.

Lemma cu_flush : counter_untouched sled_flush.
Proof. apply cu_attempt. simpl. tauto. Qed.

Lemma cu_contains k : k <> TASK_COUNTER_KEY -> counter_untouched (sled_contains_key k).
Proof. intros Hk. apply cu_bind; [apply cu_attempt; exact Hk|]. intros. apply cu_gets. Qed.

Lemma cu_get k : k <> TASK_COUNTER_KEY -> counter_untouched (sled_get k).
Proof. intros Hk. apply cu_bind; [apply cu_attempt; exact Hk|]. intros. apply cu_gets. Qed.

Lemma cu_index_writer : counter_untouched index_writer.
Proof. apply cu_bind; [apply cu_attempt; simpl; tauto|]. intros. apply cu_ret. Qed.

Lemma cu_commit wr : counter_untouched (writer_commit wr).
Proof.
  apply cu_bind; [apply cu_attempt; simpl; tauto|]. intros [] w.
  split; [reflexivity|]. exists []. auto.
Qed.

Lemma cu_add_doc n wr : counter_untouched (add_note_to_index n wr).
Proof. apply cu_bind; [apply cu_attempt; simpl; tauto|]. intros. apply cu_ret. Qed.

Lemma cu_delete_term k wr : counter_untouched (delete_note_from_index k wr).
Proof. apply cu_bind; [apply cu_log; simpl; tauto|]. intros. apply cu_ret. Qed.

End CounterFrame.

Create HintDb counter_frame.
#[global] Hint Resolve cu_ret cu_fail cu_gets cu_lift cu_utc_now cu_flush
  cu_index_writer cu_commit cu_add_doc cu_delete_term : counter_frame.

#[global] Hint Extern 1 (counter_untouched (sled_insert _ _)) =>
  apply cu_insert; assumption : counter_frame.
#[global] Hint Extern 1 (counter_untouched (sled_remove _)) =>
  apply cu_remove; assumption : counter_frame.
#[global] Hint Extern 1 (counter_untouched (sled_contains_key _)) =>
  apply cu_contains; assumption : counter_frame.
#[global] Hint Extern 1 (counter_untouched (sled_get _)) =>
  apply cu_get; assumption : counter_frame.
#[global] Hint Extern 1 (counter_untouched (attempt _ _)) =>
  apply cu_attempt; simpl; solve [auto] : counter_frame.
#[global] Hint Extern 1 (counter_untouched (log _)) =>
  apply cu_log; simpl; tauto : counter_frame.

Ltac frame_step :=
  first
    [ solve [eauto with counter_frame]
    | apply cu_bind
    | match goal with
      | |- forall _, _ => intros
      | |- counter_untouched (if ?b then _ else _) => destruct b
      | |- counter_untouched (match ?x with _ => _ end) => destruct x
      | |- counter_untouched (let '(_, _) := ?x in _) => destruct x
      end ].

Lemma cu_save_note n : key n <> TASK_COUNTER_KEY -> counter_untouched (save_note n).
Proof. intros Hk. unfold save_note. repeat frame_step. Qed.

Lemma cu_save_note_with_index n :
  key n <> TASK_COUNTER_KEY -> counter_untouched (save_note_with_index n).
Proof.
  intros Hk. unfold save_note_with_index.
  apply cu_bind; [by apply cu_save_note|intros]. repeat frame_step.
Qed.

Lemma cu_get_note k : k <> TASK_COUNTER_KEY -> counter_untouched (get_note k).
Proof. intros Hk. unfold get_note. repeat frame_step. Qed.

Lemma cu_delete_note_with_index k :
  k <> TASK_COUNTER_KEY -> counter_untouched (delete_note_with_index k).
Proof. intros Hk. unfold delete_note_with_index, delete_note. repeat frame_step. Qed.

Lemma cu_new_cmd k message input title_opt tag :
  k <> TASK_COUNTER_KEY -> counter_untouched (new_cmd k message input title_opt tag).
Proof.
  intros Hk. unfold new_cmd, key_exists, read_input. repeat frame_step.
Qed.

Lemma task_key_not_counter tid : task_key tid <> TASK_COUNTER_KEY.
Proof.
  intros H. apply (f_equal (String.get 0)) in H. vm_compute in H. discriminate.
Qed.

Lemma cu_save_task t : counter_untouched (save_task t).
Proof.
  unfold save_task. pose proof (task_key_not_counter (id t)). repeat frame_step.
Qed.

Lemma scan_tasks_not_counter s :
  Forall (fun kv => kv.1 <> TASK_COUNTER_KEY) (sled_scan_prefix "tasks/" s).
Proof.
  unfold sled_scan_prefix. apply Forall_forall. intros [k v] Hin.
  apply list_elem_of_filter in Hin as [Hp _]. simpl in *.
  intros ->. vm_compute in Hp. discriminate.
Qed.

Lemma cu_collect_tasks es :
  Forall (fun kv => kv.1 <> TASK_COUNTER_KEY) es ->
  counter_untouched (collect_tasks es).
Proof.
  induction es as [|[k v] es IH]; intros Hes; simpl; [apply cu_ret|].
  inversion Hes as [|? ? Hk Hes']; subst. simpl in Hk.
  apply cu_bind; [apply cu_attempt; exact Hk|]. intros [].
  destruct (task_from_slice v); [|apply cu_fail].
  apply cu_bind; [by apply IH|]. intros. apply cu_ret.
Qed.

Lemma collect_keys_result es w ks w1 :
  collect_keys es w = (Ok ks, w1) -> ks = map fst es.
Proof.
  revert w ks w1. induction es as [|[k v] es IH]; intros w ks w1 E; simpl in *.
  - unfold mret, M_ret, ret in E. congruence.
  - rewrite bind_run in E. unfold attempt in E.
    destruct (faults w) as [|[] fs]; simpl in E; try discriminate;
      rewrite bind_run in E;
      (destruct (collect_keys es _) as [[ks'| |] w2] eqn:E2; try discriminate);
      unfold mret, M_ret, ret in E; injection E as <- _; f_equal; eauto.
Qed.

Lemma cu_collect_keys es :
  Forall (fun kv => kv.1 <> TASK_COUNTER_KEY) es ->
  counter_untouched (collect_keys es).
Proof.
  induction es as [|[k v] es IH]; intros Hes; simpl; [apply cu_ret|].
  inversion Hes as [|? ? Hk Hes']; subst. simpl in Hk.
  apply cu_bind; [apply cu_attempt; exact Hk|]. intros [].
  apply cu_bind; [by apply IH|]. intros. apply cu_ret.
Qed.

Lemma cu_get_all_tasks : counter_untouched get_all_tasks.
Proof.
  unfold get_all_tasks.
  apply (cu_bind_gets _ _ (Forall (fun kv => kv.1 <> TASK_COUNTER_KEY))).
  - intros w. apply scan_tasks_not_counter.
  - apply cu_collect_tasks.
Qed.

Lemma cu_delete_all_tasks : counter_untouched delete_all_tasks.
Proof.
  unfold delete_all_tasks.
  apply (cu_bind_gets _ _ (Forall (fun kv => kv.1 <> TASK_COUNTER_KEY))).
  - intros w. apply scan_tasks_not_counter.
  - intros es Hes.
    apply (cu_bind_post _ _ (fun ks => TASK_COUNTER_KEY ∉ ks)).
    + by apply cu_collect_keys.
    + intros w ks w1 E. apply collect_keys_result in E as ->.
      intros Hin. apply list_elem_of_In, in_map_iff in Hin as [[k v] [Hk Hin]].
      simpl in Hk. subst k.
      rewrite Forall_forall in Hes. apply (Hes (TASK_COUNTER_KEY, v)); [|reflexivity].
      by apply list_elem_of_In.
    + intros ks Hks. apply cu_bind; [by apply cu_batch|]. intros [].
      apply cu_bind; [apply cu_flush|]. intros. apply cu_ret.
Qed.

(** C3 (as the code behaves): the counter key is not reserved from note
    keys, so note operations reach it exactly when they are given it as the
    note key. Given any other key, saving, getting, deleting or creating a
    note neither reads nor writes the counter entry and leaves it as it
    was; so do saving a task, listing tasks (a scan of the prefix
    [tasks/]) and the bulk task reset. *)
Theorem counter_key_untouched_by_other_ops :
  (forall note, key note <> TASK_COUNTER_KEY ->
     counter_untouched (save_note_with_index note)) /\
  (forall k, k <> TASK_COUNTER_KEY ->
     counter_untouched (get_note k) /\
     counter_untouched (delete_note_with_index k)) /\
  (forall k message input title_opt tag, k <> TASK_COUNTER_KEY ->
     counter_untouched (new_cmd k message input title_opt tag)) /\
  (forall task, counter_untouched (save_task task)) /\
  counter_untouched get_all_tasks /\
  counter_untouched delete_all_tasks.
Proof.
  split; [apply cu_save_note_with_index|].
  split; [intros k Hk; split; [by apply cu_get_note|by apply cu_delete_note_with_index]|].
  split; [intros; by apply cu_new_cmd|].
  split; [apply cu_save_task|].
  split; [apply cu_get_all_tasks|apply cu_delete_all_tasks].
Qed.

(** C3, as stated, fails: [medi delete "__counter__/tasks"] goes through
    [delete_note_with_index], which checks and removes the counter entry. *)
Lemma note_delete_removes_counter :
  store (world_with store_with_counter [] []) !! TASK_COUNTER_KEY = Some counter_one /\
  run_res (delete_note_with_index TASK_COUNTER_KEY) (world_with store_with_counter [] [])
    = Ok tt /\
  store (run_world (delete_note_with_index TASK_COUNTER_KEY)
           (world_with store_with_counter [] [])) !! TASK_COUNTER_KEY = None /\
  EvRemove TASK_COUNTER_KEY ∈
    trace (run_world (delete_note_with_index TASK_COUNTER_KEY)
             (world_with store_with_counter [] [])).
Proof.
  vm_compute. split; [reflexivity|]. split; [reflexivity|].
  split; [reflexivity|]. set_solver.
Qed.

(* ------------------------------------------------------------------ *)
(** ** C2: the task id sequence *)

Lemma next_id_step m w :
  counter_at m w -> 0 <= m -> m + 1 < u64_modulus ->
  (run_res get_next_task_id w = Ok (m + 1) /\
   counter_at (m + 1) (run_world get_next_task_id w)) \/
  (run_res get_next_task_id w = Err (Sled "update_and_fetch") /\
   counter_at m (run_world get_next_task_id w)).
Proof.
  intros Hc Hm Hlt.
  assert (Hs : u64_succ m = m + 1).
  { unfold u64_succ. apply Z.mod_small. lia. }
  assert (Hcl : counter_closure (store w !! TASK_COUNTER_KEY)
                = Ok (Some (RawBytes (to_le_bytes (m + 1))))).
  { destruct Hc as [[-> ->] | ->]; [reflexivity|].
    unfold counter_closure. rewrite copy_from_slice8_le by lia.
    rewrite Hs. reflexivity. }
  unfold run_res, run_world, get_next_task_id, sled_update_and_fetch, attempt.
  rewrite !bind_run. destruct (faults w) as [|[] fs]; simpl.
  - left. rewrite Hcl. simpl. unfold lift. rewrite copy_from_slice8_le by lia.
    split; [reflexivity|]. right. simpl. apply lookup_insert_eq.
  - right. split; [reflexivity|]. exact Hc.
  - left. rewrite Hcl. simpl. unfold lift. rewrite copy_from_slice8_le by lia.
    split; [reflexivity|]. right. simpl. apply lookup_insert_eq.
Qed.

Lemma run_schedule_ids sched :
  forall m w, counter_at m w -> 0 <= m ->
  m + Z.of_nat (calls sched) < u64_modulus ->
  Forall preserves_counter sched ->
  (run_schedule sched w).1 = seqZ (m + 1) (Z.of_nat (length (run_schedule sched w).1)).
Proof.
  induction sched as [|sl sched IH]; intros m w Hc Hm Hlt Hpres; [reflexivity|].
  inversion Hpres as [|? ? Hsl Hpres']; subst.
  destruct sl as [|f]; simpl.
  - simpl in Hlt.
    destruct (next_id_step m w Hc Hm ltac:(lia)) as [[Hr Hc1]|[Hr Hc1]];
      unfold run_res, run_world in *;
      destruct (get_next_task_id w) as [r w1]; simpl in *; subst r.
    + pose proof (IH (m + 1) w1 Hc1 ltac:(lia) ltac:(lia) Hpres') as Hids.
      destruct (run_schedule sched w1) as [ids w2]. simpl in *.
      rewrite Nat2Z.inj_succ, (seqZ_cons (m + 1)) by lia.
      rewrite Z.pred_succ. f_equal.
      replace (Z.succ (m + 1)) with (m + 1 + 1) by lia. exact Hids.
    + apply IH; auto. lia.
  - apply IH; try assumption.
    destruct Hc as [[-> Hn] | Hs]; [left; split; [reflexivity|] | right];
      rewrite Hsl; assumption.
Qed.

Lemma next_id_no_fault w :
  faults w = [] ->
  (forall e, run_res get_next_task_id w <> Err e) /\
  faults (run_world get_next_task_id w) = [].
Proof.
  intros Hf. unfold run_res, run_world, get_next_task_id, sled_update_and_fetch,
    attempt. rewrite !bind_run, Hf. simpl.
  destruct (counter_closure_some (store w !! TASK_COUNTER_KEY) _ eq_refl)
    as [Hc|[x Hc]]; rewrite Hc; simpl; [split; [congruence|reflexivity]|].
  unfold lift. rewrite copy_from_slice8_le by apply u64_succ_range.
  split; [congruence|reflexivity].
Qed.

Lemma run_schedule_calls_only k :
  forall m w, counter_at m w -> 0 <= m -> m + Z.of_nat k < u64_modulus ->
  faults w = [] ->
  length (run_schedule (repeat CallNextId k) w).1 = k.
Proof.
  induction k as [|k IH]; intros m w Hc Hm Hlt Hf; [reflexivity|]. simpl.
  destruct (next_id_no_fault w Hf) as [Hne Hf1].
  destruct (next_id_step m w Hc Hm ltac:(lia)) as [[Hr Hc1]|[Hr Hc1]];
    [|exfalso; exact (Hne _ Hr)].
  unfold run_res, run_world in *.
  destruct (get_next_task_id w) as [r w1]. simpl in *. subst r.
  pose proof (IH (m + 1) w1 Hc1 ltac:(lia) ltac:(lia) Hf1) as Hl.
  destruct (run_schedule (repeat CallNextId k) w1). simpl in *. lia.
Qed.

(** C2 (as the code behaves): from a store without the counter entry, the
    ids returned by the successful [get_next_task_id] calls of any
    sequential schedule are 1, 2, 3, ... in order, with no repeats, as long
    as the operations interleaved with them leave the counter entry alone
    and fewer than 2^64 ids are requested (beyond that the u64 wraps). A
    call whose store update fails returns that error and issues no id.
    With no store failure, k calls in a row return exactly 1, ..., k. *)
Theorem next_task_ids_count_up (sched : list Slot) (w : World) :
  store w !! TASK_COUNTER_KEY = None ->
  Z.of_nat (calls sched) < u64_modulus ->
  Forall preserves_counter sched ->
  (run_schedule sched w).1
    = seqZ 1 (Z.of_nat (length (run_schedule sched w).1)) /\
  (faults w = [] -> forall k, sched = repeat CallNextId k ->
   (run_schedule sched w).1 = seqZ 1 (Z.of_nat k)).
Proof.
  intros Hnone Hlt Hpres.
  assert (Hc : counter_at 0 w) by (left; auto).
  assert (Hids := run_schedule_ids sched 0 w Hc ltac:(lia) ltac:(lia) Hpres).
  split; [exact Hids|].
  intros Hf k ->. rewrite Hids. f_equal. f_equal.
  apply (run_schedule_calls_only k 0 w Hc); [lia| |exact Hf].
  enough (calls (repeat CallNextId k) = k) by lia.
  clear. induction k; simpl; congruence.
Qed.

Lemma save_note_preserves_counter_slot :
  preserves_counter (OtherOp (run_world (save_note_with_index note_n1))).
Proof.
  intros w. apply cu_save_note_with_index. vm_compute. discriminate.
Qed.

Lemma next_task_ids_count_up_witness :
  store (no_faults ∅ []) !! TASK_COUNTER_KEY = None /\
  Z.of_nat (calls schedule_c2) < u64_modulus /\
  Forall preserves_counter schedule_c2 /\
  ((run_schedule schedule_c2 (no_faults ∅ [])).1
     = seqZ 1 (Z.of_nat (length (run_schedule schedule_c2 (no_faults ∅ [])).1)) /\
   (faults (no_faults ∅ []) = [] -> forall k, schedule_c2 = repeat CallNextId k ->
    (run_schedule schedule_c2 (no_faults ∅ [])).1 = seqZ 1 (Z.of_nat k))).
Proof.
  assert (H1 : store (no_faults ∅ []) !! TASK_COUNTER_KEY = None) by reflexivity.
  assert (H2 : Z.of_nat (calls schedule_c2) < u64_modulus) by (vm_compute; reflexivity).
  assert (H3 : Forall preserves_counter schedule_c2).
  { constructor; [exact I|]. constructor; [apply save_note_preserves_counter_slot|].
    constructor; [exact I|]. constructor. }
  split; [exact H1|]. split; [exact H2|]. split; [exact H3|].
  apply (next_task_ids_count_up schedule_c2 (no_faults ∅ []) H1 H2 H3).
Defined.

(** C2, as stated, fails: [medi delete "__counter__/tasks"] between two
    calls removes the counter entry, and the id 1 is issued twice. *)
Lemma next_task_id_repeats_after_counter_delete :
  (run_schedule
     [CallNextId; OtherOp (run_world (delete_note_with_index TASK_COUNTER_KEY));
      CallNextId] (no_faults ∅ [])).1 = [1; 1].
Proof. vm_compute. reflexivity. Qed.

Lemma collect_notes_bad es : forall w,
  (exists k v, In (k, v) es /\ note_from_slice v = None) ->
  exists e w1, collect_notes es w = (Err e, w1) /\
               store w1 = store w /\ index w1 = index w.
Proof.
  induction es as [|[k v] es IH]; intros w [k' [v' [Hin Hv]]]; [destruct Hin|].
  cbn [collect_notes]. rewrite bind_run. unfold attempt.
  assert (Hrest : forall w', store w' = store w -> index w' = index w ->
            exists e w1, (match note_from_slice v with
                          | None => fail SerdeJson
                          | Some n => ns ← collect_notes es ; mret (n :: ns)
                          end) w' = (Err e, w1) /\
                         store w1 = store w /\ index w1 = index w).
  { intros w' Hs' Hi'. destruct (note_from_slice v) as [n|] eqn:En.
    - destruct Hin as [Heq|Hin]; [inversion Heq; subst; congruence|].
      destruct (IH w' ltac:(exists k', v'; split; assumption))
        as [e [w1 [Hr [Hs Hi]]]].
      rewrite bind_run, Hr. exists e, w1. split; [reflexivity|].
      rewrite Hs, Hi. auto.
    - exists SerdeJson, w'. auto. }
  destruct (faults w) as [|[|] fs] eqn:Ef; cbn beta iota.
  - apply Hrest; reflexivity.
  - eexists _, _. split; [reflexivity|]. auto.
  - apply Hrest; reflexivity.
Qed.

Lemma sled_entries_In s k v : s !! k = Some v -> In (k, v) (sled_entries s).
Proof.
  intros H. unfold sled_entries.
  apply (Permutation_in _ (Permutation_sym (merge_sort_Permutation key_le _))).
  apply list_elem_of_In, elem_of_map_to_list, H.
Qed.

(** C1 (as the code behaves): [medi reindex] reads the notes with
    [get_all_notes], which deserialises every entry of the store as a note.
    As soon as one entry is not a note's JSON (a task under [tasks/..], or
    the counter under [__counter__/tasks]), reindexing fails before the
    index writer is opened, and both the store and the index are left as
    they were: a stale or incomplete index is not rebuilt. *)
Theorem reindex_fails_on_non_note_entry (w : World) (k : string) (v : Value) :
  store w !! k = Some v ->
  note_from_slice v = None ->
  (exists e, run_res reindex_cmd w = Err e) /\
  index (run_world reindex_cmd w) = index w /\
  store (run_world reindex_cmd w) = store w.
Proof.
  intros Hk Hv.
  destruct (collect_notes_bad (sled_entries (store w)) w
              ltac:(exists k, v; split; [apply sled_entries_In|]; assumption))
    as [e [w1 [Hr [Hs Hi]]]].
  assert (Hre : reindex_cmd w = (Err e, w1)).
  { unfold reindex_cmd, get_all_notes. rewrite !bind_run. exact (bind_err _ _ _ _ _ Hr). }
  unfold run_res, run_world. rewrite Hre.
  split; [eexists; reflexivity | split; assumption].
Qed.

Lemma reindex_fails_on_non_note_entry_witness :
  store (world_with store_note_task [] []) !! "n1" = Some (JsonNote note_n1) /\
  store (world_with store_note_task [] []) !! "tasks/1" = Some (JsonTask task_t1) /\
  note_from_slice (JsonTask task_t1) = None /\
  ((exists e, run_res reindex_cmd (world_with store_note_task [] []) = Err e) /\
   index (run_world reindex_cmd (world_with store_note_task [] [])) = [] /\
   store (run_world reindex_cmd (world_with store_note_task [] []))
     = store_note_task).
Proof.
  assert (H1 : store (world_with store_note_task [] []) !! "tasks/1"
               = Some (JsonTask task_t1)) by (vm_compute; reflexivity).
  split; [vm_compute; reflexivity|]. split; [exact H1|].
  split; [reflexivity|].
  exact (reindex_fails_on_non_note_entry (world_with store_note_task [] [])
           "tasks/1" (JsonTask task_t1) H1 eq_refl).
Defined.

Lemma save_note_with_index_effect note w :
  (store (run_world (save_note_with_index note) w) = store w \/
   store (run_world (save_note_with_index note) w)
     = <[key note := JsonNote note]> (store w)) /\
  (index (run_world (save_note_with_index note) w) = index w \/
   index (run_world (save_note_with_index note) w)
     = filter (fun d => doc_key d <> key note) (index w) ++ [note_doc note]) /\
  (run_res (save_note_with_index note) w = Ok tt ->
   store (run_world (save_note_with_index note) w)
     = <[key note := JsonNote note]> (store w) /\
   index (run_world (save_note_with_index note) w)
     = filter (fun d => doc_key d <> key note) (index w) ++ [note_doc note]) /\
  clock (run_world (save_note_with_index note) w) = clock w /\
  ticks (run_world (save_note_with_index note) w) = ticks w.
Proof.
  destruct w as [s i fs c t tr]. unfold run_world, run_res. mrun.
  all: repeat split; auto; discriminate.
Qed.

Lemma get_note_present k n w :
  store w !! k = Some (JsonNote n) ->
  exists w1, (get_note k w = (Ok n, w1) \/ exists e, get_note k w = (Err e, w1)) /\
             store w1 = store w /\ clock w1 = clock w /\ ticks w1 = ticks w.
Proof.
  intros Hk. destruct w as [s i fs c t tr]. simpl in Hk. mrun_at Hk;
    eexists; (split; [eauto | auto]).
Qed.

Lemma read_input_frame input w :
  exists r w1, read_input input w = (r, w1) /\
    store w1 = store w /\ clock w1 = clock w /\ ticks w1 = ticks w.
Proof. destruct input; eexists _, _; (split; [reflexivity | auto]). Qed.

Lemma save_stamped n n' w :
  key n' = key n -> created_at n' = created_at n ->
  store (run_world (save_note_with_index n') w) !! key n = store w !! key n \/
  stamped_from n (modified_at n')
    (store (run_world (save_note_with_index n') w) !! key n).
Proof.
  intros Hk Hc. destruct (save_note_with_index_effect n' w) as [[Hs|Hs] _];
    [rewrite Hs; left; reflexivity | rewrite Hs; right].
  rewrite <- Hk at 1.
  rewrite Hk, lookup_insert_eq. exists n'. auto.
Qed.

(** C7 (as the code behaves): editing the note stored under [k] (adding
    or removing tags, or changing its content through the editor) either
    leaves the stored note as it was, or replaces it by a note with the
    same key and the same [created_at] whose [modified_at] is the reading
    of the wall clock ([Utc::now()]) taken by the edit. That value is
    larger than the old [modified_at] only when the clock has moved past
    it. *)
Theorem edit_keeps_key_and_created_at (k : string) (add_tag rm_tag : list string)
    (edited : option string) (w : World) (n : Note) :
  store w !! k = Some (JsonNote n) ->
  key n = k ->
  store (run_world (edit_cmd k add_tag rm_tag edited) w) !! k = Some (JsonNote n) \/
  stamped_from n (clock w (ticks w))
    (store (run_world (edit_cmd k add_tag rm_tag edited) w) !! k).
Proof.
  intros Hk Hkey. unfold run_world, edit_cmd. rewrite bind_run.
  destruct (get_note_present k n w Hk) as [w1 [[Hg|[e Hg]] [Hs1 [Hc1 Ht1]]]];
    rewrite Hg; [|left; simpl; rewrite Hs1; exact Hk].
  cbn beta. destruct (add_tags (tags n) add_tag) as [tags1 modified1].
  set (n1 := set_tags n (retain_tags tags1 rm_tag)).
  assert (Hk1 : key n1 = key n) by reflexivity.
  assert (Hc1' : created_at n1 = created_at n) by reflexivity.
  destruct (modified1 || _).
  - rewrite bind_run. unfold utc_now.
    destruct (save_stamped n (set_modified_at n1 (clock w1 (ticks w1)))
                (mkWorld (store w1) (index w1) (faults w1) (clock w1)
                         (S (ticks w1)) (trace w1)) Hk1 Hc1')
      as [Hl|Hl]; unfold run_world in Hl; simpl in Hl; rewrite Hkey in Hl;
      [left; rewrite Hl, Hs1; exact Hk | right; replace (clock w (ticks w)) with (clock w1 (ticks w1))
         by (rewrite Hc1, Ht1; reflexivity); exact Hl].
  - rewrite bind_run.
    destruct (read_input_frame edited w1) as [r [w2 [Hr [Hs2 [Hc2 Ht2]]]]].
    rewrite Hr. destruct r as [s| |]; cbn beta;
      [|left; simpl; rewrite Hs2, Hs1; exact Hk..].
    destruct (decide _); [|left; simpl; rewrite Hs2, Hs1; exact Hk].
    rewrite bind_run. unfold utc_now.
    destruct (save_stamped n (set_modified_at (set_content n1 s) (clock w2 (ticks w2)))
                (mkWorld (store w2) (index w2) (faults w2) (clock w2)
                         (S (ticks w2)) (trace w2)) Hk1 Hc1')
      as [Hl|Hl]; unfold run_world in Hl; simpl in Hl; rewrite Hkey in Hl;
      [left; rewrite Hl, Hs2, Hs1; exact Hk
      | right; replace (clock w (ticks w)) with (clock w2 (ticks w2))
          by (rewrite Hc2, Ht2, Hc1, Ht1; reflexivity); exact Hl].
Qed.

Lemma edit_keeps_key_and_created_at_witness :
  store (world_with store_n1 [note_doc note_n1] []) !! "n1" = Some (JsonNote note_n1) /\
  key note_n1 = "n1" /\
  (store (run_world (edit_cmd "n1" ["y"] [] None)
            (world_with store_n1 [note_doc note_n1] [])) !! "n1"
     = Some (JsonNote note_n1) \/
   stamped_from note_n1 (clock (world_with store_n1 [note_doc note_n1] [])
                           (ticks (world_with store_n1 [note_doc note_n1] [])))
     (store (run_world (edit_cmd "n1" ["y"] [] None)
               (world_with store_n1 [note_doc note_n1] [])) !! "n1")).
Proof.
  assert (H1 : store (world_with store_n1 [note_doc note_n1] []) !! "n1"
               = Some (JsonNote note_n1)) by (vm_compute; reflexivity).
  split; [exact H1|]. split; [reflexivity|].
  exact (edit_keeps_key_and_created_at "n1" ["y"] [] None
           (world_with store_n1 [note_doc note_n1] []) note_n1 H1 eq_refl).
Defined.

(** C7, as stated, fails: [medi edit n1 --add-tag y] succeeds and stores
    [modified_at = 50], below the previous 100: [Utc::now()] is a wall
    clock, not a monotonic one. *)
Lemma edit_modified_at_can_decrease :
  run_res (edit_cmd "n1" ["y"] [] None) world_clock_back = Ok tt /\
  store (run_world (edit_cmd "n1" ["y"] [] None) world_clock_back) !! "n1"
    = Some (JsonNote (mkNote "n1" "Alpha" ["x"; "y"] "rust systems" 0 50)) /\
  50 < modified_at note_late.
Proof. split; [|split]; [vm_compute; reflexivity ..| reflexivity]. Qed.

Lemma scored_from_spec {Query} (score : Query -> Doc -> option Z) qry ds :
  forall pre, Forall (fun hit => exists d, (pre ++ ds) !! hit.2 = Some d /\
                                           score qry d = Some hit.1)
                     (scored_from score qry (length pre) ds).
Proof.
  induction ds as [|d ds IH]; intros pre; simpl; [constructor|].
  assert (Hrest := IH (pre ++ [d])).
  rewrite length_app, <- app_assoc in Hrest. simpl in Hrest.
  replace (length pre + 1)%nat with (S (length pre)) in Hrest by lia.
  destruct (score qry d) as [s|] eqn:Hs; [|exact Hrest].
  constructor; [|exact Hrest].
  exists d. split; [apply list_lookup_middle; reflexivity | exact Hs].
Qed.

Lemma scored_from_addr_ge {Query} (score : Query -> Doc -> option Z) qry ds :
  forall a, Forall (fun hit => (a <= hit.2)%nat) (scored_from score qry a ds).
Proof.
  induction ds as [|d ds IH]; intros a; simpl; [constructor|].
  assert (H := IH (S a)).
  destruct (score qry d); [constructor; [simpl; lia|]|];
    (eapply Forall_impl; [exact H | simpl; lia]).
Qed.

Lemma scored_from_NoDup {Query} (score : Query -> Doc -> option Z) qry ds :
  forall a, NoDup (map snd (scored_from score qry a ds)).
Proof.
  induction ds as [|d ds IH]; intros a; simpl; [constructor|].
  destruct (score qry d); [|apply IH].
  simpl. constructor; [|apply IH].
  intros Hin. apply list_elem_of_In, in_map_iff in Hin as [hit [Ha Hin]].
  pose proof (scored_from_addr_ge score qry ds (S a)) as Hge.
  rewrite Forall_forall in Hge.
  specialize (Hge hit ltac:(by apply list_elem_of_In)). lia.
Qed.

Lemma fetch_keys_ok idx hits : forall w ks w1,
  fetch_keys idx hits w = (Ok ks, w1) ->
  Forall2 (fun hit k => exists d, idx !! hit.2 = Some d /\ doc_key d = k) hits ks.
Proof.
  induction hits as [|[s a] hs IH]; intros w ks w1 H.
  - inversion H. constructor.
  - cbn [fetch_keys] in H. rewrite bind_run in H. unfold attempt in H.
    destruct (faults w) as [|[|] fs]; cbn beta iota in H; try discriminate;
      (destruct (idx !! a) as [d|] eqn:Hd; [|discriminate]);
      rewrite bind_run in H;
      (destruct (fetch_keys idx hs _) as [[ks'| |] w2] eqn:Hf; try discriminate);
      inversion H; subst; constructor; eauto.
Qed.

Lemma attempt_index ev e w r w1 :
  attempt ev e w = (r, w1) -> index w1 = index w.
Proof. unfold attempt. destruct (faults w) as [|[] ?]; intros H; inversion H; reflexivity. Qed.

Lemma Forall2_with_Forall_l {A B} (P : A -> Prop) (Q : A -> B -> Prop) l k :
  Forall P l -> Forall2 Q l k -> Forall2 (fun x y => P x /\ Q x y) l k.
Proof. intros HP HQ. induction HQ; inversion HP; subst; constructor; auto. Qed.

Lemma StronglySorted_rank_score l :
  StronglySorted rank_le l -> StronglySorted (fun a b => b.1 <= a.1) l.
Proof.
  induction 1 as [|x l _ IH Hx]; constructor; [exact IH|].
  eapply Forall_impl; [exact Hx|]. intros [b j]; unfold rank_le; simpl; lia.
Qed.

(** The successful runs of [search_notes]: the query was parsed against the
    fields [title], [content], [tags]; the result lists the keys of the
    first (at most 10) hits of an ordering of the matching documents by
    decreasing score. *)
Lemma search_notes_ok {Query} (parse_query : list string -> string -> option Query)
    (score : Query -> Doc -> option Z) (q : string) (w : World) (ks : list string) :
  run_res (search_notes parse_query score q) w = Ok ks ->
  exists qry, parse_query ["title"; "content"; "tags"] q = Some qry /\
    Forall2 (fun hit k => exists d, index w !! hit.2 = Some d /\ doc_key d = k)
      (top_docs score 10 qry (index w)) ks.
Proof.
  intros H. unfold run_res, search_notes in H. rewrite bind_run in H.
  destruct (attempt EvReader _ w) as [[[]| |] w1] eqn:E1; try discriminate.
  apply attempt_index in E1.
  destruct (parse_query _ q) as [qry|]; [|discriminate].
  rewrite !bind_run in H. unfold gets in H. cbn beta iota in H.
  rewrite bind_run in H.
  destruct (attempt EvSearch _ w1) as [[[]| |] w2] eqn:E2; try discriminate.
  destruct (fetch_keys _ _ _) as [r w3] eqn:Hf. simpl in H. subst r.
  exists qry. split; [reflexivity|]. rewrite <- E1. eapply fetch_keys_ok; exact Hf.
Qed.

(** C8: whenever [search_notes] succeeds, the query was parsed against the
    fields [title], [content] and [tags], and there is an ordering [ranked]
    of all the matching documents of the committed index (with their
    scores), sorted by decreasing score, such that the result is the [key]
    field of the first at most 10 entries of [ranked], in that order. So
    the result has at most 10 keys, most relevant first. *)
Theorem search_notes_ranked_keys {Query}
    (parse_query : list string -> string -> option Query)
    (score : Query -> Doc -> option Z) (q : string) (w : World)
    (ks : list string) :
  run_res (search_notes parse_query score q) w = Ok ks ->
  exists qry ranked,
    parse_query ["title"; "content"; "tags"] q = Some qry /\
    ranked ≡ₚ scored_from score qry 0 (index w) /\
    StronglySorted (fun a b => b.1 <= a.1) ranked /\
    Forall2 (fun hit k => exists d, index w !! hit.2 = Some d /\
                                    doc_key d = k /\ score qry d = Some hit.1)
      (take 10 ranked) ks /\
    (length ks <= 10)%nat.
Proof.
  intros H. destruct (search_notes_ok parse_query score q w ks H) as [qry [Hq Hf]].
  set (ranked := merge_sort rank_le (scored_from score qry 0 (index w))).
  assert (Hp : ranked ≡ₚ scored_from score qry 0 (index w))
    by apply merge_sort_Permutation.
  assert (Hspec := scored_from_spec score qry (index w) []). simpl in Hspec.
  rewrite <- Hp in Hspec. apply (Forall_take _ 10) in Hspec.
  exists qry, ranked. split; [exact Hq|]. split; [exact Hp|].
  split; [apply StronglySorted_rank_score, StronglySorted_merge_sort;
          [exact rank_le_trans | exact rank_le_total]|].
  assert (H2 := Forall2_with_Forall_l _ _ _ _ Hspec Hf).
  split.
  - eapply Forall2_impl; [exact H2|].
    intros hit k [[d [Hd Hs]] [d' [Hd' Hk]]]. rewrite Hd in Hd'.
    injection Hd' as <-. eauto.
  - apply Forall2_length in Hf. unfold top_docs in Hf.
    rewrite <- Hf, length_take. lia.
Qed.

Lemma search_notes_ranked_keys_witness :
  run_res (search_notes parse_word word_score "y") (world_with ∅ index_three [])
    = Ok ["b"; "c"; "a"] /\
  exists qry ranked,
    parse_word ["title"; "content"; "tags"] "y" = Some qry /\
    ranked ≡ₚ scored_from word_score qry 0 index_three /\
    StronglySorted (fun a b => b.1 <= a.1) ranked /\
    Forall2 (fun hit k => exists d, index_three !! hit.2 = Some d /\
                                    doc_key d = k /\ word_score qry d = Some hit.1)
      (take 10 ranked) ["b"; "c"; "a"] /\
    (length ["b"; "c"; "a"] <= 10)%nat.
Proof.
  assert (H : run_res (search_notes parse_word word_score "y")
                (world_with ∅ index_three []) = Ok ["b"; "c"; "a"])
    by (vm_compute; reflexivity).
  split; [exact H|].
  exact (search_notes_ranked_keys parse_word word_score "y"
           (world_with ∅ index_three []) ["b"; "c"; "a"] H).
Defined.

Lemma save_note_with_index_no_faults note w :
  faults w = [] ->
  run_res (save_note_with_index note) w = Ok tt /\
  faults (run_world (save_note_with_index note) w) = [].
Proof.
  destruct w as [s i fs c t tr]. simpl. intros ->. unfold run_world, run_res.
  mrun. auto.
Qed.

Lemma count_key_after_save k note idx :
  key note = k ->
  count_key k (filter (fun d => doc_key d <> key note) idx ++ [note_doc note]) = 1%nat.
Proof.
  intros <-. unfold count_key. rewrite filter_app, length_app.
  assert (H0 : length (filter (fun d => doc_key d = key note)
                         (filter (fun d => doc_key d <> key note) idx)) = 0%nat).
  { induction idx as [|d idx IH]; [reflexivity|].
    rewrite filter_cons. case_decide; [|exact IH].
    rewrite filter_cons. case_decide; [contradiction|exact IH]. }
  rewrite H0. simpl. unfold filter. simpl. case_decide; [reflexivity|].
  exfalso; auto.
Qed.

Lemma run_saves_index k notes : forall w,
  Forall (fun n => key n = k) notes ->
  index (run_saves notes w) = index w \/
  count_key k (index (run_saves notes w)) = 1%nat.
Proof.
  induction notes as [|n ns IH]; intros w Hk; [left; reflexivity|].
  inversion Hk as [|? ? Hn Hns]; subst. simpl.
  destruct (IH (run_world (save_note_with_index n) w) Hns) as [Hi|Hi];
    [|right; exact Hi].
  rewrite Hi.
  destruct (save_note_with_index_effect n w) as [_ [[Hx|Hx] _]];
    [left; exact Hx | right; rewrite Hx; apply count_key_after_save; reflexivity].
Qed.

Lemma run_saves_no_faults k notes : forall w,
  Forall (fun n => key n = k) notes -> faults w = [] -> notes <> [] ->
  count_key k (index (run_saves notes w)) = 1%nat.
Proof.
  induction notes as [|n ns IH]; intros w Hk Hf Hne; [congruence|].
  inversion Hk as [|? ? Hn Hns]; subst. simpl.
  destruct (save_note_with_index_no_faults n w Hf) as [Hok Hf1].
  destruct ns as [|n' ns'].
  - simpl. destruct (save_note_with_index_effect n w) as [_ [_ [Hx _]]].
    rewrite (proj2 (Hx Hok)). apply count_key_after_save; reflexivity.
  - apply IH; [exact Hns | exact Hf1 | discriminate].
Qed.

Lemma count_key_unique k idx : forall a b da db,
  (count_key k idx <= 1)%nat ->
  idx !! a = Some da -> idx !! b = Some db ->
  doc_key da = k -> doc_key db = k -> a = b.
Proof.
  unfold count_key.
  assert (Hpos : forall l i d, l !! i = Some d -> doc_key d = k ->
            (1 <= length (filter (fun d => doc_key d = k) l))%nat).
  { induction l as [|x l IH]; intros [|i] d Hl Hd; try discriminate;
      rewrite filter_cons.
    - injection Hl as ->. case_decide; [simpl; lia | contradiction].
    - case_decide; simpl; [lia | eapply IH; eauto]. }
  induction idx as [|x idx IH]; intros [|a] [|b] da db Hc Ha Hb Hka Hkb;
    try discriminate; try reflexivity; rewrite filter_cons in Hc.
  - injection Ha as ->. case_decide; [|contradiction].
    pose proof (Hpos idx b db Hb Hkb). simpl in Hc. lia.
  - injection Hb as ->. case_decide; [|contradiction].
    pose proof (Hpos idx a da Ha Hka). simpl in Hc. lia.
  - f_equal. eapply IH; eauto. case_decide; simpl in Hc; lia.
Qed.

Lemma keys_without k (idx : list Doc) (hs : list (Z * nat)) (ks : list string) :
  Forall2 (fun hit k' => exists d, idx !! hit.2 = Some d /\ doc_key d = k') hs ks ->
  Forall (fun hit => forall d, idx !! hit.2 = Some d -> doc_key d <> k) hs ->
  filter (fun s => s = k) ks = [].
Proof.
  induction 1 as [|h k' hs ks [d [Hd Hk]] _ IH]; intros Hn; [reflexivity|].
  inversion Hn as [|? ? Hh Hhs]; subst. rewrite filter_cons.
  case_decide as Heq; [exfalso; exact (Hh d Hd Heq) | exact (IH Hhs)].
Qed.

Lemma keys_at_most_once k (idx : list Doc) (hs : list (Z * nat)) (ks : list string) :
  Forall2 (fun hit k' => exists d, idx !! hit.2 = Some d /\ doc_key d = k') hs ks ->
  NoDup (map snd hs) ->
  (count_key k idx <= 1)%nat ->
  (length (filter (fun s => s = k) ks) <= 1)%nat.
Proof.
  intros HF. induction HF as [|h k' hs ks [d [Hd Hk]] Hrest IH];
    intros Hnd Hc; [simpl; lia|].
  simpl in Hnd. inversion Hnd as [|? ? Hnin Hnd']; subst.
  rewrite filter_cons. case_decide as Heq; [|exact (IH Hnd' Hc)].
  rewrite (keys_without k idx hs ks Hrest); [simpl; lia|].
  apply Forall_forall. intros hit Hin d' Hd' Hk'.
  assert (Ha : hit.2 = h.2) by (eapply count_key_unique; eauto; congruence).
  apply Hnin. rewrite <- Ha. apply list_elem_of_In, in_map, list_elem_of_In, Hin.
Qed.

Lemma top_docs_NoDup {Query} (score : Query -> Doc -> option Z) n qry idx :
  NoDup (map snd (top_docs score n qry idx)).
Proof.
  unfold top_docs.
  assert (H : NoDup (map snd (merge_sort rank_le (scored_from score qry 0 idx)))).
  { apply (NoDup_Permutation_proper _ (map snd (scored_from score qry 0 idx))).
    - apply Permutation_map, merge_sort_Permutation.
    - apply scored_from_NoDup. }
  rewrite <- (take_drop n (merge_sort rank_le _)), map_app in H.
  apply NoDup_app in H. tauto.
Qed.

Lemma search_key_at_most_once {Query} (parse_query : list string -> string -> option Query)
    (score : Query -> Doc -> option Z) q w ks k :
  (count_key k (index w) <= 1)%nat ->
  run_res (search_notes parse_query score q) w = Ok ks ->
  (length (filter (fun s => s = k) ks) <= 1)%nat.
Proof.
  intros Hc H. destruct (search_notes_ok parse_query score q w ks H) as [qry [_ Hf]].
  eapply keys_at_most_once; [exact Hf | apply top_docs_NoDup | exact Hc].
Qed.

(** C5: for a run of separate saves of notes that all have the key [k]
    (a first save, then edits), the committed index afterwards either is
    the index before the run (every save failed before its commit) or holds
    exactly one document with key [k]: each committed save deletes every
    document with that key and adds one, in a single commit. With no
    failure and at least one save it holds exactly one. Starting from an
    index with at most one document for [k] (a fresh index, for instance),
    no search on the resulting index returns [k] more than once. *)
Theorem repeated_saves_single_doc (k : string) (notes : list Note) (w : World) :
  Forall (fun n => key n = k) notes ->
  (index (run_saves notes w) = index w \/
   count_key k (index (run_saves notes w)) = 1%nat) /\
  (faults w = [] -> notes <> [] ->
   count_key k (index (run_saves notes w)) = 1%nat) /\
  ((count_key k (index w) <= 1)%nat ->
   forall (Query : Type) (parse_query : list string -> string -> option Query)
     (score : Query -> Doc -> option Z) (q : string) (ks : list string),
   run_res (search_notes parse_query score q) (run_saves notes w) = Ok ks ->
   (length (filter (fun s => s = k) ks) <= 1)%nat).
Proof.
  intros Hk. pose proof (run_saves_index k notes w Hk) as Hi.
  split; [exact Hi|]. split; [intros; apply run_saves_no_faults; assumption|].
  intros Hc Query parse_query score q ks Hs.
  eapply search_key_at_most_once; [|exact Hs].
  destruct Hi as [Hi|Hi]; rewrite Hi; [exact Hc | lia].
Qed.

Lemma repeated_saves_single_doc_witness :
  Forall (fun n => key n = "n1") [note_n1; note_n1_edit1; note_n1_edit2] /\
  ((index (run_saves [note_n1; note_n1_edit1; note_n1_edit2] (no_faults ∅ []))
      = index (no_faults ∅ []) \/
    count_key "n1" (index (run_saves [note_n1; note_n1_edit1; note_n1_edit2]
                                     (no_faults ∅ []))) = 1%nat) /\
   (faults (no_faults ∅ []) = [] -> [note_n1; note_n1_edit1; note_n1_edit2] <> [] ->
    count_key "n1" (index (run_saves [note_n1; note_n1_edit1; note_n1_edit2]
                                     (no_faults ∅ []))) = 1%nat) /\
   ((count_key "n1" (index (no_faults ∅ [])) <= 1)%nat ->
    forall (Query : Type) (parse_query : list string -> string -> option Query)
      (score : Query -> Doc -> option Z) (q : string) (ks : list string),
    run_res (search_notes parse_query score q)
      (run_saves [note_n1; note_n1_edit1; note_n1_edit2] (no_faults ∅ [])) = Ok ks ->
    (length (filter (fun s => s = "n1") ks) <= 1)%nat)).
Proof.
  assert (H : Forall (fun n => key n = "n1") [note_n1; note_n1_edit1; note_n1_edit2])
    by (repeat constructor).
  split; [exact H|].
  exact (repeated_saves_single_doc "n1" [note_n1; note_n1_edit1; note_n1_edit2]
           (no_faults ∅ []) H).
Defined.

(** * Further properties of the program *)


(** X1: [get_note] on a missing key fails with [KeyNotFound k] (or the store's
    read error); on a stored value that is not a note it fails with [SerdeJson]
    (or the read error); on a stored note with no store fault it returns that
    note; it never changes the store or the index. *)
Theorem get_note_outcomes (k : string) (w : World) :
  (store w !! k = None ->
   run_res (get_note k) w = Err (KeyNotFound k) \/
   run_res (get_note k) w = Err (Sled "get")) /\
  (forall v, store w !! k = Some v -> note_from_slice v = None ->
   run_res (get_note k) w = Err SerdeJson \/
   run_res (get_note k) w = Err (Sled "get")) /\
  (forall n, store w !! k = Some (JsonNote n) -> faults w = [] ->
   run_res (get_note k) w = Ok n) /\
  store (run_world (get_note k) w) = store w /\
  index (run_world (get_note k) w) = index w.
Proof.
  destruct w as [s i fs c t tr]. unfold run_res, run_world. simpl.
  destruct (s !! k) as [v|] eqn:E.
  - destruct v as [n|tk|bs]; mrun_at E; repeat split; intros; simplify_eq/=;
      auto.
  - mrun_at E; repeat split; intros; try congruence; auto.
Qed.

(** X2: [save_note n] leaves every other key of the store as it was, and with no
    store fault a [get_note] of [key n] right after it returns [n]. *)
Theorem save_note_get_note (n : Note) (w : World) :
  (forall k, k <> key n ->
   store (run_world (save_note n) w) !! k = store w !! k) /\
  (faults w = [] -> run_res (save_note n ;; get_note (key n)) w = Ok n).
Proof.
  destruct w as [s i fs c t tr]. unfold run_res, run_world. simpl. split.
  - intros k Hk. mrun; rewrite ?lookup_insert_ne by congruence; reflexivity.
  - intros ->. mrun. rewrite lookup_insert_eq. reflexivity.
Qed.


Lemma attempt_spec ev e w r w1 :
  attempt ev e w = (r, w1) ->
  store w1 = store w /\ index w1 = index w /\ (r = Ok tt \/ r = Err e) /\
  (faults w = [] -> r = Ok tt /\ faults w1 = []).
Proof.
  unfold attempt. destruct (faults w) as [|[] fs]; intros H; inversion H; subst;
    simpl; repeat split; auto; discriminate.
Qed.

Lemma collect_notes_sound es : forall w r w1,
  collect_notes es w = (r, w1) ->
  store w1 = store w /\ index w1 = index w /\
  (forall ns, r = Ok ns -> Forall2 (fun kv n => kv.2 = JsonNote n) es ns).
Proof.
  induction es as [|[k v] es IH]; intros w r w1 H; simpl in H.
  - inversion H; subst. repeat split; auto. intros ns [= <-]. constructor.
  - rewrite bind_run in H.
    destruct (attempt _ _ w) as [r2 w2] eqn:Ea.
    destruct (attempt_spec _ _ _ _ _ Ea) as [Hs2 [Hi2 [Hr _]]].
    destruct Hr as [->| ->]; cbn beta iota in H;
      [|inversion H; subst; repeat split; auto; discriminate].
    destruct v as [n|tk|bs]; simpl in H;
      try (inversion H; subst; repeat split; auto; discriminate).
    rewrite bind_run in H.
    destruct (collect_notes es w2) as [r3 w3] eqn:Ec.
    destruct (IH _ _ _ Ec) as [Hs3 [Hi3 HF]].
    destruct r3 as [ns'| e |]; inversion H; subst;
      (split; [congruence|split; [congruence|]]); try discriminate.
    intros ns [= <-]. constructor; auto.
Qed.

Lemma collect_notes_complete es : forall w,
  faults w = [] -> Forall (fun kv => exists n, kv.2 = JsonNote n) es ->
  exists ns w1, collect_notes es w = (Ok ns, w1) /\ faults w1 = [].
Proof.
  induction es as [|[k v] es IH]; intros w Hf Hn; simpl.
  - eauto.
  - inversion Hn as [|? ? [n Hv] Hes]; subst. simpl in Hv. subst v.
    rewrite bind_run.
    destruct (attempt _ _ w) as [r w2] eqn:Ea.
    destruct (attempt_spec _ _ _ _ _ Ea) as [_ [_ [_ Hr]]].
    destruct (Hr Hf) as [-> Hf2]. simpl. rewrite bind_run.
    destruct (IH w2 Hf2 Hes) as [ns [w3 [Ec Hf3]]]. rewrite Ec. eauto.
Qed.

Lemma string_leb_trans a b c :
  String.leb a b = true -> String.leb b c = true -> String.leb a c = true.
Proof.
  unfold String.leb. revert b c.
  induction a as [|x a IH]; intros [|y b] [|z c]; simpl; try easy.
  unfold Ascii.compare.
  destruct (N.compare_spec (Ascii.N_of_ascii x) (Ascii.N_of_ascii y)) as [Hxy|Hxy|Hxy];
  destruct (N.compare_spec (Ascii.N_of_ascii y) (Ascii.N_of_ascii z)) as [Hyz|Hyz|Hyz];
  destruct (N.compare_spec (Ascii.N_of_ascii x) (Ascii.N_of_ascii z)) as [Hxz|Hxz|Hxz];
  try easy; try lia.
  apply IH.
Qed.

Lemma sled_entries_spec s :
  StronglySorted key_le (sled_entries s) /\ NoDup (sled_entries s).*1 /\
  (forall k v, (k, v) ∈ sled_entries s <-> s !! k = Some v).
Proof.
  unfold sled_entries. split; [|split].
  - apply StronglySorted_merge_sort.
    + intros [a x] [b y] [c z]; unfold key_le; simpl. apply string_leb_trans.
    + intros [a x] [b y]; unfold key_le; simpl. apply String.leb_total.
  - rewrite (merge_sort_Permutation key_le (map_to_list s)). apply NoDup_fst_map_to_list.
  - intros k v. rewrite (merge_sort_Permutation key_le (map_to_list s)).
    apply elem_of_map_to_list.
Qed.

Lemma attempt_then_ret {A} ev e (a : A) w r w1 :
  (attempt ev e ;; mret a) w = (r, w1) ->
  store w1 = store w /\ index w1 = index w /\ (r = Ok a \/ r = Err e) /\
  (faults w = [] -> r = Ok a /\ faults w1 = []).
Proof.
  intros H. rewrite bind_run in H.
  destruct (attempt ev e w) as [r0 w0] eqn:Ea.
  destruct (attempt_spec _ _ _ _ _ Ea) as [Hs [Hi [Hr Hf]]].
  destruct Hr as [-> | ->]; inversion H; subst; (split; [auto|split; [auto|]]).
  - split; [auto|]. intros Hw. destruct (Hf Hw). auto.
  - split; [auto|]. intros Hw. destruct (Hf Hw). discriminate.
Qed.

Lemma get_all_notes_spec w r w1 :
  get_all_notes w = (r, w1) ->
  store w1 = store w /\ index w1 = index w /\
  (forall ns, r = Ok ns ->
     Forall2 (fun kv n => kv.2 = JsonNote n) (sled_entries (store w)) ns) /\
  (faults w = [] ->
   (forall k v, store w !! k = Some v -> exists n, v = JsonNote n) ->
   exists ns, r = Ok ns /\ faults w1 = []).
Proof.
  unfold get_all_notes. rewrite bind_run. simpl. intros H.
  destruct (collect_notes_sound _ _ _ _ H) as [Hs [Hi HF]].
  repeat split; auto.
  intros Hf Hn.
  destruct (collect_notes_complete (sled_entries (store w)) w Hf) as [ns' [w2 [Ec Hf2]]].
  - apply Forall_forall. intros [k v] Hin.
    apply (Hn k v). apply (proj2 (proj2 (sled_entries_spec (store w))) k v).
    exact Hin.
  - rewrite Ec in H. inversion H; subst. eauto.
Qed.

Lemma Forall2_notes_split (es : list (string * Value)) ns :
  Forall2 (fun kv n => kv.2 = JsonNote n) es ns ->
  exists kns : list (string * Note),
    es = map (fun kn => (kn.1, JsonNote kn.2)) kns /\ ns = kns.*2.
Proof.
  induction 1 as [|[k v] n es ns Hv _ [kns [-> ->]]]; simpl in *.
  - exists []. auto.
  - subst v. exists ((k, n) :: kns). auto.
Qed.

(** X3: [get_all_notes] succeeds exactly when every value of the store is a note
    (given no store fault), and then returns the stored notes one per key, in
    ascending key order. *)
Theorem get_all_notes_in_key_order (w : World) :
  (faults w = [] ->
   (forall k v, store w !! k = Some v -> exists n, v = JsonNote n) ->
   exists ns, run_res get_all_notes w = Ok ns) /\
  forall ns, run_res get_all_notes w = Ok ns ->
  (forall k v, store w !! k = Some v -> exists n, v = JsonNote n) /\
  exists kns : list (string * Note),
    ns = kns.*2 /\
    StronglySorted (fun a b => String.leb a b = true) kns.*1 /\
    NoDup kns.*1 /\
    (forall k n, (k, n) ∈ kns <-> store w !! k = Some (JsonNote n)).
Proof.
  unfold run_res. destruct (get_all_notes w) as [r w1] eqn:E. simpl.
  destruct (get_all_notes_spec _ _ _ E) as [_ [_ [HF Hc]]].
  split; [intros Hf Hn; destruct (Hc Hf Hn) as [ns [-> _]]; eauto|].
  intros ns ->.
  destruct (Forall2_notes_split _ _ (HF ns eq_refl)) as [kns [Hes ->]].
  destruct (sled_entries_spec (store w)) as [Hsort [Hnd Hin]].
  rewrite Hes in Hsort, Hnd, Hin.
  assert (Hk : (map (fun kn : string * Note => (kn.1, JsonNote kn.2)) kns).*1 = kns.*1).
  { rewrite <- list_fmap_compose. reflexivity. }
  split.
  - intros k v Hkv. apply Hin in Hkv. apply list_elem_of_fmap in Hkv.
    destruct Hkv as [[k' n] [[= -> ->] _]]. eauto.
  - exists kns. split; [reflexivity|]. split; [|split].
    + rewrite <- Hk. apply (StronglySorted_fmap fst key_le); [|exact Hsort].
      intros x y H. exact H.
    + rewrite <- Hk. exact Hnd.
    + intros k n. rewrite <- Hin. split.
      * intros H. apply list_elem_of_fmap. exists (k, n). auto.
      * intros H. apply list_elem_of_fmap in H.
        destruct H as [[k' n'] [Hn H]]. simplify_eq/=. exact H.
Qed.

Lemma add_all_to_index_spec ns : forall wr w r w1,
  add_all_to_index ns wr w = (r, w1) ->
  store w1 = store w /\ index w1 = index w /\
  (forall wr', r = Ok wr' -> wr' = wr ++ map (fun n => OpAdd (note_doc n)) ns) /\
  (faults w = [] -> r = Ok (wr ++ map (fun n => OpAdd (note_doc n)) ns) /\ faults w1 = []).
Proof.
  induction ns as [|n ns IH]; intros wr w r w1 H; simpl in H.
  - inversion H; subst. rewrite app_nil_r.
    split; [auto|split; [auto|split]]; [intros ? [= ->]; auto|auto].
  - rewrite bind_run in H. unfold add_note_to_index in H.
    destruct ((attempt (EvAddDoc (key n)) (Tantivy "add_document") ;;
               mret (wr ++ [OpAdd (note_doc n)])) w) as [r2 w2] eqn:Ea.
    destruct (attempt_then_ret _ _ _ _ _ _ Ea) as [Hs2 [Hi2 [Hr Hf]]].
    destruct Hr as [-> | ->].
    + destruct (IH _ _ _ _ H) as [Hs3 [Hi3 [HR HF]]].
      rewrite <- app_assoc in HR, HF. simpl in HR, HF.
      split; [congruence|]. split; [congruence|]. split; [exact HR|].
      intros Hw. destruct (Hf Hw) as [_ Hw2]. exact (HF Hw2).
    + inversion H; subst. split; [auto|split; [auto|split]].
      * intros ? ?; discriminate.
      * intros Hw. destruct (Hf Hw). discriminate.
Qed.

Lemma apply_adds idx ns :
  foldl apply_op idx (map (fun n => OpAdd (note_doc n)) ns) = idx ++ map note_doc ns.
Proof.
  revert idx. induction ns as [|n ns IH]; intros idx; simpl.
  - rewrite app_nil_r. reflexivity.
  - rewrite IH, <- app_assoc. reflexivity.
Qed.

(** X4: [reindex] never changes the store; when it fails the index is as it was;
    when it succeeds the index holds exactly one document per stored note, in
    key order; with no store fault and only notes stored it succeeds. *)
Theorem reindex_rebuilds_index (w : World) :
  store (run_world reindex_cmd w) = store w /\
  (run_res reindex_cmd w <> Ok tt -> index (run_world reindex_cmd w) = index w) /\
  (run_res reindex_cmd w = Ok tt ->
   exists ns, Forall2 (fun kv n => kv.2 = JsonNote n) (sled_entries (store w)) ns /\
              index (run_world reindex_cmd w) = map note_doc ns) /\
  (faults w = [] ->
   (forall k v, store w !! k = Some v -> exists n, v = JsonNote n) ->
   run_res reindex_cmd w = Ok tt).
Proof.
  unfold run_res, run_world, reindex_cmd. rewrite bind_run.
  destruct (get_all_notes w) as [r1 w1] eqn:E1.
  destruct (get_all_notes_spec _ _ _ E1) as [Hs1 [Hi1 [HF1 Hc1]]].
  destruct r1 as [ns| e |]; simpl;
    [|repeat split; auto; try discriminate;
      intros Hf Hn; destruct (Hc1 Hf Hn) as [? [? _]]; discriminate ..].
  rewrite bind_run. unfold index_writer.
  destruct ((attempt EvWriterOpen (Tantivy "writer") ;; mret []) w1) as [r2 w2] eqn:E2.
  destruct (attempt_then_ret _ _ _ _ _ _ E2) as [Hs2 [Hi2 [Hr2 Hf2]]].
  destruct Hr2 as [-> | ->]; simpl;
    [|repeat split; try congruence;
      intros Hf Hn; destruct (Hc1 Hf Hn) as [? [_ Hw1]]; destruct (Hf2 Hw1); discriminate].
  rewrite bind_run. unfold writer_delete_all_documents.
  destruct ((attempt EvDeleteAll (Tantivy "delete_all_documents") ;; mret ([] ++ [OpDeleteAll])) w2)
    as [r3 w3] eqn:E3.
  destruct (attempt_then_ret _ _ _ _ _ _ E3) as [Hs3 [Hi3 [Hr3 Hf3]]].
  destruct Hr3 as [-> | ->]; simpl;
    [|repeat split; try congruence;
      intros Hf Hn; destruct (Hc1 Hf Hn) as [? [_ Hw1]]; destruct (Hf2 Hw1) as [_ Hw2];
      destruct (Hf3 Hw2); discriminate].
  rewrite bind_run.
  destruct (add_all_to_index ns [OpDeleteAll] w3) as [r4 w4] eqn:E4.
  destruct (add_all_to_index_spec _ _ _ _ _ E4) as [Hs4 [Hi4 [HR4 Hf4]]].
  destruct r4 as [wr| e |]; simpl;
    [|repeat split; try congruence;
      intros Hf Hn; destruct (Hc1 Hf Hn) as [? [[= <-] Hw1]]; destruct (Hf2 Hw1) as [_ Hw2];
      destruct (Hf3 Hw2) as [_ Hw3]; destruct (Hf4 Hw3); discriminate ..].
  specialize (HR4 wr eq_refl). subst wr. unfold writer_commit.
  rewrite bind_run.
  destruct (attempt EvCommit (Tantivy "commit") w4) as [r5 w5] eqn:E5.
  destruct (attempt_spec _ _ _ _ _ E5) as [Hs5 [Hi5 [Hr5 Hf5]]].
  destruct Hr5 as [-> | ->]; simpl.
  - repeat split; try congruence.
    + intros _. exists ns. split; [exact (HF1 ns eq_refl)|].
      unfold apply_ops. simpl. apply apply_adds.
  - repeat split; try congruence.
    intros Hf Hn. destruct (Hc1 Hf Hn) as [? [[= <-] Hw1]]. destruct (Hf2 Hw1) as [_ Hw2].
    destruct (Hf3 Hw2) as [_ Hw3]. destruct (Hf4 Hw3) as [_ Hw4]. destruct (Hf5 Hw4); discriminate.
Qed.

Lemma collect_tasks_sound es : forall w r w1,
  collect_tasks es w = (r, w1) ->
  store w1 = store w /\ index w1 = index w /\
  (forall ts, r = Ok ts -> Forall2 (fun kv t => kv.2 = JsonTask t) es ts).
Proof.
  induction es as [|[k v] es IH]; intros w r w1 H; simpl in H.
  - inversion H; subst. repeat split; auto. intros ts [= <-]. constructor.
  - rewrite bind_run in H.
    destruct (attempt _ _ w) as [r2 w2] eqn:Ea.
    destruct (attempt_spec _ _ _ _ _ Ea) as [Hs2 [Hi2 [Hr _]]].
    destruct Hr as [->| ->]; cbn beta iota in H;
      [|inversion H; subst; repeat split; auto; discriminate].
    destruct v as [n|tk|bs]; simpl in H;
      try (inversion H; subst; repeat split; auto; discriminate).
    rewrite bind_run in H.
    destruct (collect_tasks es w2) as [r3 w3] eqn:Ec.
    destruct (IH _ _ _ Ec) as [Hs3 [Hi3 HF]].
    destruct r3 as [ts'| e |]; inversion H; subst;
      (split; [congruence|split; [congruence|]]); try discriminate.
    intros ts [= <-]. constructor; auto.
Qed.

Lemma collect_tasks_complete es : forall w,
  faults w = [] -> Forall (fun kv => exists t, kv.2 = JsonTask t) es ->
  exists ts w1, collect_tasks es w = (Ok ts, w1) /\ faults w1 = [].
Proof.
  induction es as [|[k v] es IH]; intros w Hf Hn; simpl.
  - eauto.
  - inversion Hn as [|? ? [t Hv] Hes]; subst. simpl in Hv. subst v.
    rewrite bind_run.
    destruct (attempt _ _ w) as [r w2] eqn:Ea.
    destruct (attempt_spec _ _ _ _ _ Ea) as [_ [_ [_ Hr]]].
    destruct (Hr Hf) as [-> Hf2]. simpl. rewrite bind_run.
    destruct (IH w2 Hf2 Hes) as [ts [w3 [Ec Hf3]]]. rewrite Ec. eauto.
Qed.

Lemma StronglySorted_sublist {A} (R : relation A) (l1 l2 : list A) :
  l1 `sublist_of` l2 -> StronglySorted R l2 -> StronglySorted R l1.
Proof.
  induction 1 as [|x l1 l2 Hsub IH|x l1 l2 Hsub IH]; intros Hs.
  - constructor.
  - inversion Hs as [|? ? Hs' Hall]; subst. constructor; [auto|].
    rewrite Forall_forall in Hall |- *. intros y Hy.
    apply Hall. eapply elem_of_sublist; eauto.
  - inversion Hs; subst. auto.
Qed.

Lemma sled_scan_prefix_spec p s :
  StronglySorted key_le (sled_scan_prefix p s) /\ NoDup (sled_scan_prefix p s).*1 /\
  (forall k v, (k, v) ∈ sled_scan_prefix p s <->
               String.prefix p k = true /\ s !! k = Some v).
Proof.
  destruct (sled_entries_spec s) as [Hsort [Hnd Hin]].
  unfold sled_scan_prefix. split; [|split].
  - eapply StronglySorted_sublist; [apply sublist_filter|exact Hsort].
  - eapply sublist_NoDup; [exact Hnd|]. apply fmap_sublist, sublist_filter.
  - intros k v. rewrite list_elem_of_filter, Hin. reflexivity.
Qed.

Lemma Forall2_tasks_split (es : list (string * Value)) ts :
  Forall2 (fun kv t => kv.2 = JsonTask t) es ts ->
  exists kts : list (string * Task),
    es = map (fun kt => (kt.1, JsonTask kt.2)) kts /\ ts = kts.*2.
Proof.
  induction 1 as [|[k v] t es ts Hv _ [kts [-> ->]]]; simpl in *.
  - exists []. auto.
  - subst v. exists ((k, t) :: kts). auto.
Qed.

(** X5: [get_all_tasks] succeeds exactly when every value under the prefix
    [tasks/] is a task (given no store fault), and then returns those tasks one
    per key, in ascending key order. *)
Theorem get_all_tasks_in_key_order (w : World) :
  (faults w = [] ->
   (forall k v, String.prefix "tasks/" k = true -> store w !! k = Some v ->
                exists t, v = JsonTask t) ->
   exists ts, run_res get_all_tasks w = Ok ts) /\
  forall ts, run_res get_all_tasks w = Ok ts ->
  (forall k v, String.prefix "tasks/" k = true -> store w !! k = Some v ->
               exists t, v = JsonTask t) /\
  exists kts : list (string * Task),
    ts = kts.*2 /\
    StronglySorted (fun a b => String.leb a b = true) kts.*1 /\
    NoDup kts.*1 /\
    (forall k t, (k, t) ∈ kts <->
                 String.prefix "tasks/" k = true /\ store w !! k = Some (JsonTask t)).
Proof.
  unfold run_res, get_all_tasks. rewrite bind_run. simpl.
  destruct (sled_scan_prefix_spec "tasks/" (store w)) as [Hsort [Hnd Hin]].
  destruct (collect_tasks (sled_scan_prefix "tasks/" (store w)) w) as [r w1] eqn:E.
  destruct (collect_tasks_sound _ _ _ _ E) as [_ [_ HF]]. simpl. split.
  - intros Hf Hn.
    destruct (collect_tasks_complete (sled_scan_prefix "tasks/" (store w)) w Hf)
      as [ts [w2 [Ec _]]].
    + apply Forall_forall. intros [k v] Hkv. apply Hin in Hkv as [Hp Hkv].
      exact (Hn k v Hp Hkv).
    + rewrite Ec in E. inversion E; subst. eauto.
  - intros ts ->.
    destruct (Forall2_tasks_split _ _ (HF ts eq_refl)) as [kts [Hes ->]].
    rewrite Hes in Hsort, Hnd, Hin.
    assert (Hk : (map (fun kt : string * Task => (kt.1, JsonTask kt.2)) kts).*1 = kts.*1).
    { rewrite <- list_fmap_compose. reflexivity. }
    split.
    + intros k v Hp Hkv. assert (H : (k, v) ∈ map (fun kt : string * Task => (kt.1, JsonTask kt.2)) kts)
        by (apply Hin; auto).
      apply list_elem_of_fmap in H. destruct H as [[k' t] [Heq _]]. simplify_eq/=. eauto.
    + exists kts. split; [reflexivity|]. split; [|split].
      * rewrite <- Hk. apply (StronglySorted_fmap fst key_le); [|exact Hsort].
        intros x y H. exact H.
      * rewrite <- Hk. exact Hnd.
      * intros k t. rewrite <- Hin. split.
        -- intros H. apply list_elem_of_fmap. exists (k, t). auto.
        -- intros H. apply list_elem_of_fmap in H.
           destruct H as [[k' t'] [Hn H]]. simplify_eq/=. exact H.
Qed.

Lemma collect_keys_frame es : forall w r w1,
  collect_keys es w = (r, w1) ->
  store w1 = store w /\ index w1 = index w /\
  (faults w = [] -> r = Ok es.*1 /\ faults w1 = []).
Proof.
  induction es as [|[k v] es IH]; intros w r w1 H; simpl in H.
  - inversion H; subst. auto.
  - rewrite bind_run in H.
    destruct (attempt _ _ w) as [r2 w2] eqn:Ea.
    destruct (attempt_spec _ _ _ _ _ Ea) as [Hs2 [Hi2 [Hr Hf]]].
    destruct Hr as [->| ->]; cbn beta iota in H.
    + rewrite bind_run in H.
      destruct (collect_keys es w2) as [r3 w3] eqn:Ec.
      destruct (IH _ _ _ Ec) as [Hs3 [Hi3 Hf3]].
      split; [destruct r3; inversion H; subst; congruence|].
      split; [destruct r3; inversion H; subst; congruence|].
      intros Hw. destruct (Hf Hw) as [_ Hw2]. destruct (Hf3 Hw2) as [-> Hw3].
      inversion H; subst. auto.
    + inversion H; subst. split; [auto|split; [auto|]].
      intros Hw. destruct (Hf Hw). discriminate.
Qed.

Lemma lookup_foldl_delete_in (s : gmap string Value) ks k :
  k ∈ ks -> foldl (fun s k => delete k s) s ks !! k = None.
Proof.
  revert s. induction ks as [|k' ks IH]; intros s Hk; simpl; [set_solver|].
  destruct (decide (k ∈ ks)) as [Hin|Hnin]; [by apply IH|].
  rewrite lookup_foldl_delete by done.
  assert (k = k') as -> by set_solver. apply lookup_delete_eq.
Qed.

Lemma batch_remove_scan s :
  foldl (fun s k => delete k s) s (sled_scan_prefix "tasks/" s).*1 = without_tasks s.
Proof.
  destruct (sled_scan_prefix_spec "tasks/" s) as [_ [_ Hin]].
  apply map_eq. intros k. unfold without_tasks.
  destruct (decide (k ∈ (sled_scan_prefix "tasks/" s).*1)) as [Hk|Hk].
  - rewrite lookup_foldl_delete_in by done.
    apply list_elem_of_fmap in Hk as [[k' v] [-> Hkv]]. apply Hin in Hkv as [Hp _].
    symmetry. apply map_lookup_filter_None. right. intros x _. simpl. congruence.
  - rewrite lookup_foldl_delete by done.
    destruct (s !! k) as [v|] eqn:E.
    + assert (Hp : String.prefix "tasks/" k = false).
      { destruct (String.prefix "tasks/" k) eqn:Hp; [|done]. exfalso. apply Hk.
        apply list_elem_of_fmap. exists (k, v). split; [done|]. by apply Hin. }
      symmetry. apply map_lookup_filter_Some. auto.
    + symmetry. apply map_lookup_filter_None. auto.
Qed.

Lemma scan_length s :
  length (sled_scan_prefix "tasks/" s) =
  size (filter (fun kv : string * Value => String.prefix "tasks/" kv.1 = true) s).
Proof.
  destruct (sled_scan_prefix_spec "tasks/" s) as [_ [Hnd Hin]].
  rewrite <- length_map_to_list. apply Permutation_length.
  apply NoDup_Permutation.
  - eapply NoDup_fmap_1. exact Hnd.
  - apply NoDup_map_to_list.
  - intros [k v]. rewrite Hin, elem_of_map_to_list, map_lookup_filter_Some. simpl.
    tauto.
Qed.

(** X6: [delete_all_tasks] never touches the index and either leaves the store
    unchanged or removes exactly the keys with prefix [tasks/]; on success it
    returns the number of such keys; with no store fault it succeeds. *)
Theorem delete_all_tasks_removes_prefix (w : World) :
  index (run_world delete_all_tasks w) = index w /\
  (store (run_world delete_all_tasks w) = store w \/
   store (run_world delete_all_tasks w) = without_tasks (store w)) /\
  (forall n, run_res delete_all_tasks w = Ok n ->
   store (run_world delete_all_tasks w) = without_tasks (store w) /\
   n = size (filter (fun kv : string * Value => String.prefix "tasks/" kv.1 = true)
                    (store w))) /\
  (faults w = [] -> exists n, run_res delete_all_tasks w = Ok n).
Proof.
  unfold run_res, run_world, delete_all_tasks. rewrite bind_run. simpl.
  rewrite bind_run.
  destruct (collect_keys (sled_scan_prefix "tasks/" (store w)) w) as [r1 w1] eqn:E1.
  destruct (collect_keys_frame _ _ _ _ E1) as [Hs1 [Hi1 Hf1]].
  destruct r1 as [ks| e |]; simpl;
    [|repeat split; auto; try discriminate;
      intros Hf; destruct (Hf1 Hf); discriminate ..].
  pose proof (collect_keys_result _ _ _ _ E1) as Hks.
  unfold sled_apply_batch_remove, sled_flush, modify. rewrite !bind_run.
  destruct (attempt (EvBatchRemove ks) (Sled "apply_batch") w1) as [r2 w2] eqn:E2.
  destruct (attempt_spec _ _ _ _ _ E2) as [Hs2 [Hi2 [Hr2 Hf2]]].
  destruct Hr2 as [-> | ->]; simpl.
  - rewrite bind_run.
    destruct (attempt EvFlush (Sled "flush") (with_store (foldl (fun s k => delete k s) (store w2) ks) w2))
      as [r3 w3] eqn:E3.
    destruct (attempt_spec _ _ _ _ _ E3) as [Hs3 [Hi3 [Hr3 Hf3]]].
    simpl in Hs3, Hi3, Hf3.
    assert (Hst : store w3 = without_tasks (store w)).
    { rewrite Hs3, Hs2, Hs1, Hks. apply batch_remove_scan. }
    destruct Hr3 as [-> | ->]; simpl.
    + split; [congruence|]. split; [auto|]. split.
      * intros n [= <-]. split; [exact Hst|]. rewrite Hks, length_fmap. apply scan_length.
      * intros _. eauto.
    + split; [congruence|]. split; [auto|]. split; [discriminate|].
      intros Hf. destruct (Hf1 Hf) as [_ Hw1]. destruct (Hf2 Hw1) as [_ Hw2].
      destruct (Hf3 Hw2). discriminate.
  - split; [congruence|]. split; [left; congruence|]. split; [discriminate|].
    intros Hf. destruct (Hf1 Hf) as [_ Hw1]. destruct (Hf2 Hw1). discriminate.
Qed.


(** X7: after [reset_task_counter], [get_next_task_id] returns 1 unless one of
    the store operations fails. *)
Theorem reset_then_next_id_is_one (w : World) :
  run_res (reset_task_counter ;; get_next_task_id) w = Ok 1 \/
  run_res (reset_task_counter ;; get_next_task_id) w = Err (Sled "insert") \/
  run_res (reset_task_counter ;; get_next_task_id) w = Err (Sled "flush") \/
  run_res (reset_task_counter ;; get_next_task_id) w = Err (Sled "update_and_fetch").
Proof.
  destruct w as [s i fs c t tr]. unfold run_res, reset_task_counter, get_next_task_id,
    sled_update_and_fetch, lift.
  mrun; auto; rewrite lookup_insert_eq; simpl; auto.
Qed.

(** X8: from a counter holding the u64 [x], [get_next_task_id] either returns
    and stores [x + 1], wrapping to 0 after the largest u64, or fails with the
    store error and changes nothing. *)
Theorem next_id_wraps (w : World) (x : Z) :
  0 <= x < u64_modulus ->
  store w !! TASK_COUNTER_KEY = Some (RawBytes (to_le_bytes x)) ->
  let nx := if Z.eqb x (u64_modulus - 1) then 0 else x + 1 in
  (run_res get_next_task_id w = Ok nx /\
   store (run_world get_next_task_id w) !! TASK_COUNTER_KEY = Some (RawBytes (to_le_bytes nx))) \/
  (run_res get_next_task_id w = Err (Sled "update_and_fetch") /\
   store (run_world get_next_task_id w) = store w).
Proof.
  intros Hx Hc nx.
  assert (Hs : u64_succ x = nx).
  { unfold nx, u64_succ. destruct (Z.eqb_spec x (u64_modulus - 1)) as [->|Hne].
    - rewrite Z.sub_add. apply Z_mod_same_full.
    - apply Z.mod_small. lia. }
  assert (Hn : 0 <= nx < u64_modulus) by (rewrite <- Hs; apply u64_succ_range).
  unfold run_res, run_world, get_next_task_id, sled_update_and_fetch, attempt.
  assert (Hcl : counter_closure (store w !! TASK_COUNTER_KEY)
                = Ok (Some (RawBytes (to_le_bytes nx)))).
  { unfold counter_closure. rewrite Hc. cbn beta iota.
    rewrite copy_from_slice8_le by lia. rewrite Hs. reflexivity. }
  rewrite !bind_run. destruct (faults w) as [|[] fs]; simpl;
    [left| right; auto |left]; rewrite Hcl; simpl; unfold lift;
    rewrite copy_from_slice8_le by lia;
    (split; [reflexivity|apply lookup_insert_eq]).
Qed.

(** X9: if the counter key holds a value that is not 8 raw bytes,
    [get_next_task_id] panics (or fails with the store error) and the store is
    unchanged. *)
Theorem next_id_panics_on_malformed_counter (w : World) (v : Value) :
  store w !! TASK_COUNTER_KEY = Some v ->
  (forall bs, v = RawBytes bs -> length bs <> 8%nat) ->
  (run_res get_next_task_id w = Panic \/
   run_res get_next_task_id w = Err (Sled "update_and_fetch")) /\
  store (run_world get_next_task_id w) = store w.
Proof.
  intros Hc Hv.
  assert (Hp : copy_from_slice8 v = Panic).
  { unfold copy_from_slice8. destruct v as [n|t|bs]; simpl; auto.
    destruct (decide (length bs = 8%nat)); [|reflexivity]. exfalso. by apply (Hv bs). }
  unfold run_res, run_world, get_next_task_id, sled_update_and_fetch, attempt.
  rewrite !bind_run. destruct (faults w) as [|[] fs]; simpl; auto;
    unfold counter_closure; rewrite Hc, Hp; simpl; auto.
Qed.

Lemma task_key_inj a b : 0 <= a -> 0 <= b -> task_key a = task_key b -> a = b.
Proof.
  unfold task_key. intros Ha Hb H.
  apply (inj (String.append "tasks/")) in H. apply (inj pretty) in H.
  apply (f_equal Z.of_N) in H. rewrite !Z2N.id in H by lia. exact H.
Qed.

(** X10: [save_task t] never changes the key of any other task id, and on
    success the key of [id t] holds [t]. *)
Theorem save_task_keeps_other_ids (t : Task) (tid : Z) (w : World) :
  0 <= id t -> 0 <= tid -> tid <> id t ->
  store (run_world (save_task t) w) !! task_key tid = store w !! task_key tid /\
  (run_res (save_task t) w = Ok tt ->
   store (run_world (save_task t) w) !! task_key (id t) = Some (JsonTask t)).
Proof.
  intros Ht Htid Hne.
  assert (Hk : task_key tid <> task_key (id t)) by (intros H; apply Hne, task_key_inj; auto).
  destruct w as [s i fs c tk tr]. unfold run_res, run_world, save_task. split.
  - mrun; rewrite ?lookup_insert_ne by congruence; reflexivity.
  - mrun; intros; try discriminate; apply lookup_insert_eq.
Qed.

(** X11: a note whose key is the store key of a task id is overwritten when that
    task is saved: reading the note back then fails with [SerdeJson]. *)
Theorem task_save_clobbers_note (n : Note) (t : Task) (w : World) :
  key n = task_key (id t) -> faults w = [] ->
  run_res (save_note n ;; save_task t ;; get_note (key n)) w = Err SerdeJson.
Proof.
  intros Hk Hf. destruct w as [s i fs c tk tr]. simpl in Hf. subst fs.
  unfold run_res, save_task. mrun. rewrite Hk, lookup_insert_eq. reflexivity.
Qed.

(** X12: [task add] for a note key that holds no note never succeeds and leaves
    the store unchanged; in particular the task counter is not advanced. *)
Theorem task_add_without_note (nk desc : string) (w : World) :
  (forall n, store w !! nk <> Some (JsonNote n)) ->
  (forall a, run_res (task_add_cmd nk desc) w <> Ok a) /\
  store (run_world (task_add_cmd nk desc) w) = store w.
Proof.
  intros Hn. destruct w as [s i fs c tk tr]. simpl in Hn.
  unfold run_res, run_world, task_add_cmd.
  destruct (s !! nk) as [[n|t|bs]|] eqn:E; [exfalso; exact (Hn n eq_refl)| | |];
    mrun_at E; split; auto; discriminate.
Qed.

(** X13: [task add] for an existing note, with the counter at [m] and no store
    fault, advances the counter to [m + 1] and stores an [Open] task with id [m
    + 1] for that note. *)
Theorem task_add_stores_open_task (nk desc : string) (w : World) (n : Note) (m : Z) :
  store w !! nk = Some (JsonNote n) ->
  counter_at m w -> 0 <= m -> m + 1 < u64_modulus ->
  faults w = [] ->
  run_res (task_add_cmd nk desc) w = Ok tt /\
  store (run_world (task_add_cmd nk desc) w) =
    <[task_key (m + 1) := JsonTask (mkTask (m + 1) nk desc Open (clock w (ticks w)))]>
      (<[TASK_COUNTER_KEY := RawBytes (to_le_bytes (m + 1))]> (store w)).
Proof.
  intros Hk Hc Hm Hlt Hf.
  assert (Hs : u64_succ m = m + 1).
  { unfold u64_succ. apply Z.mod_small. lia. }
  assert (Hcl : counter_closure (store w !! TASK_COUNTER_KEY)
                = Ok (Some (RawBytes (to_le_bytes (m + 1))))).
  { destruct Hc as [[-> ->] | ->]; [reflexivity|].
    unfold counter_closure. cbn beta iota. rewrite copy_from_slice8_le by lia.
    rewrite Hs. reflexivity. }
  destruct w as [s i fs c tk tr]. simpl in *. subst fs.
  unfold run_res, run_world, task_add_cmd, get_next_task_id, sled_update_and_fetch,
    save_task, lift.
  mrun_at Hk. rewrite Hcl. cbn -[copy_from_slice8 to_le_bytes]. rewrite copy_from_slice8_le by lia. simpl.
  auto.
Qed.


Lemma get_all_tasks_spec w r w1 :
  get_all_tasks w = (r, w1) ->
  store w1 = store w /\ index w1 = index w /\
  (forall ts, r = Ok ts ->
     Forall2 (fun kv t => kv.2 = JsonTask t) (sled_scan_prefix "tasks/" (store w)) ts) /\
  (faults w = [] ->
   (forall k v, String.prefix "tasks/" k = true -> store w !! k = Some v ->
                exists t, v = JsonTask t) ->
   exists ts, r = Ok ts /\ faults w1 = []).
Proof.
  unfold get_all_tasks. rewrite bind_run. simpl. intros H.
  destruct (collect_tasks_sound _ _ _ _ H) as [Hs [Hi HF]].
  destruct (sled_scan_prefix_spec "tasks/" (store w)) as [_ [_ Hin]].
  repeat split; auto.
  intros Hf Hn.
  destruct (collect_tasks_complete (sled_scan_prefix "tasks/" (store w)) w Hf)
    as [ts' [w2 [Ec Hf2]]].
  - apply Forall_forall. intros [k v] Hkv. apply Hin in Hkv as [Hp Hkv].
    exact (Hn k v Hp Hkv).
  - rewrite Ec in H. inversion H; subst. eauto.
Qed.

Lemma find_task_spec tid ts :
  (forall t, find_task tid ts = Some t -> t ∈ ts /\ id t = tid) /\
  (find_task tid ts = None -> forall t, t ∈ ts -> id t <> tid).
Proof.
  induction ts as [|t0 ts [IH1 IH2]]; simpl.
  - split; [discriminate|]. intros _ t Ht. inversion Ht.
  - destruct (Z.eqb_spec (id t0) tid) as [E|E].
    + split; [intros t [= <-]; split; [left|]; auto|discriminate].
    + split.
      * intros t Ht. destruct (IH1 t Ht). split; [right|]; auto.
      * intros Hn t Ht. apply elem_of_cons in Ht as [->|Ht]; auto.
Qed.

Lemma Forall2_elem_r {A B} (P : A -> B -> Prop) l k y :
  Forall2 P l k -> y ∈ k -> exists x, x ∈ l /\ P x y.
Proof.
  induction 1 as [|x y' l k Hxy _ IH]; intros Hy; [inversion Hy|].
  apply elem_of_cons in Hy as [->|Hy].
  - exists x. split; [left|]; auto.
  - destruct (IH Hy) as [x' [Hx' Hp]]. exists x'. split; [right|]; auto.
Qed.

Lemma Forall2_elem_l {A B} (P : A -> B -> Prop) l k x :
  Forall2 P l k -> x ∈ l -> exists y, y ∈ k /\ P x y.
Proof.
  induction 1 as [|x' y l k Hxy _ IH]; intros Hx; [inversion Hx|].
  apply elem_of_cons in Hx as [->|Hx].
  - exists y. split; [left|]; auto.
  - destruct (IH Hx) as [y' [Hy' Hp]]. exists y'. split; [right|]; auto.
Qed.

(** X14: [task done] and [task prio] either leave the store unchanged and fail,
    or rewrite a stored task with the given id with the new status; when no
    stored task has the id they fail with [TaskNotFound]. *)
Theorem task_set_status_outcomes (s : TaskStatus) (tid : Z) (w : World) :
  ((store (run_world (task_set_status_cmd s tid) w) = store w /\
    run_res (task_set_status_cmd s tid) w <> Ok tt) \/
   (exists k t,
      String.prefix "tasks/" k = true /\ store w !! k = Some (JsonTask t) /\ id t = tid /\
      store (run_world (task_set_status_cmd s tid) w) =
        <[task_key tid := JsonTask (set_status t s)]> (store w))) /\
  (run_res (task_set_status_cmd s tid) w = Ok tt ->
   exists k t,
     String.prefix "tasks/" k = true /\ store w !! k = Some (JsonTask t) /\ id t = tid /\
     store (run_world (task_set_status_cmd s tid) w) =
       <[task_key tid := JsonTask (set_status t s)]> (store w)) /\
  (faults w = [] ->
   (forall k v, String.prefix "tasks/" k = true -> store w !! k = Some v ->
                exists t, v = JsonTask t /\ id t <> tid) ->
   run_res (task_set_status_cmd s tid) w = Err (TaskNotFound tid) /\
   store (run_world (task_set_status_cmd s tid) w) = store w).
Proof.
  destruct (sled_scan_prefix_spec "tasks/" (store w)) as [_ [_ Hin]].
  unfold run_res, run_world, task_set_status_cmd. rewrite bind_run.
  destruct (get_all_tasks w) as [r1 w1] eqn:E1.
  destruct (get_all_tasks_spec _ _ _ E1) as [Hs1 [_ [HF1 Hc1]]].
  destruct r1 as [ts| e |]; simpl;
    [| split; [left; split; [auto|discriminate]|split; [discriminate|]];
       intros Hf Hn; destruct (Hc1 Hf) as [? [? _]];
       [intros k v Hp Hkv; destruct (Hn k v Hp Hkv) as [t [-> _]]; eauto|discriminate] ..].
  pose proof (HF1 ts eq_refl) as HF.
  destruct (find_task tid ts) as [t|] eqn:Ef.
  - destruct (proj1 (find_task_spec tid ts) t Ef) as [Ht Hid].
    destruct (Forall2_elem_r _ _ _ _ HF Ht) as [[k v] [Hkv Hv]]. simpl in Hv. subst v.
    apply Hin in Hkv as [Hp Hkv].
    assert (Hsave : forall r w2, save_task (set_status t s) w1 = (r, w2) ->
              (store w2 = store w1 \/
               store w2 = <[task_key tid := JsonTask (set_status t s)]> (store w1)) /\
              (r = Ok tt -> store w2 = <[task_key tid := JsonTask (set_status t s)]> (store w1))).
    { intros r w2. destruct w1 as [s1 i1 fs1 c1 tk1 tr1]. unfold save_task.
      simpl. rewrite Hid. mrun; intros [= <- <-]; simpl; auto; split; auto; discriminate. }
    destruct (save_task (set_status t s) w1) as [r2 w2] eqn:E2.
    destruct (Hsave r2 w2 eq_refl) as [H2 H2ok]; rewrite Hs1 in H2, H2ok; simpl.
    assert (Hno : faults w = [] ->
              (forall k v, String.prefix "tasks/" k = true -> store w !! k = Some v ->
                           exists t, v = JsonTask t /\ id t <> tid) -> False).
    { intros Hf Hn. destruct (Hn k _ Hp Hkv) as [t' [[= <-] Hne]]. congruence. }
    destruct r2 as [[]| e |].
    + specialize (H2ok eq_refl).
      split; [right; exists k, t; auto|]. split; [intros _; exists k, t; auto|].
      intros Hf Hn. destruct (Hno Hf Hn).
    + split; [destruct H2 as [H2|H2]; [left; split; [auto|discriminate]|right; exists k, t; auto]|].
      split; [discriminate|]. intros Hf Hn. destruct (Hno Hf Hn).
    + split; [destruct H2 as [H2|H2]; [left; split; [auto|discriminate]|right; exists k, t; auto]|].
      split; [discriminate|]. intros Hf Hn. destruct (Hno Hf Hn).
  - unfold fail. simpl. split; [left; split; [auto|discriminate]|split; [discriminate|]].
    auto.
Qed.


(** X15: importing one file never touches the index; it either leaves the store
    unchanged or stores a fresh note with the file content under the key; an
    existing key is kept unless overwrite is set; with no store fault a new key
    or overwrite stores the note. *)
Theorem import_outcomes (k c : string) (overwrite : bool) (w : World) :
  let imported := mkNote k k [] c (clock w (ticks w)) (clock w (S (ticks w))) in
  index (run_world (handle_import k c overwrite) w) = index w /\
  (store (run_world (handle_import k c overwrite) w) = store w \/
   store (run_world (handle_import k c overwrite) w) = <[k := JsonNote imported]> (store w)) /\
  (is_Some (store w !! k) -> overwrite = false ->
   store (run_world (handle_import k c overwrite) w) = store w) /\
  (faults w = [] -> (store w !! k = None \/ overwrite = true) ->
   run_res (handle_import k c overwrite) w = Ok tt /\
   store (run_world (handle_import k c overwrite) w) = <[k := JsonNote imported]> (store w)).
Proof.
  intros imported. subst imported.
  destruct w as [s i fs cl tk tr]. unfold run_res, run_world, handle_import. simpl.
  destruct (s !! k) as [v|] eqn:E; destruct overwrite;
    mrun_at E; repeat split; auto; intros; simplify_eq/=; try discriminate;
    try (match goal with H : is_Some None |- _ => destruct H; discriminate end);
    try (match goal with H : _ \/ _ |- _ => destruct H; discriminate end); auto.
Qed.


Lemma get_note_step k w r w1 :
  get_note k w = (r, w1) ->
  store w1 = store w /\ index w1 = index w /\
  (forall n, r = Ok n -> store w !! k = Some (JsonNote n)) /\
  (faults w = [] -> forall n, store w !! k = Some (JsonNote n) ->
   r = Ok n /\ faults w1 = []).
Proof.
  destruct w as [s i fs c t tr]. simpl.
  destruct (s !! k) as [[n'|tk|bs]|] eqn:E; mrun_at E; intros [= <- <-]; simpl;
    repeat split; intros; simplify_eq/=; auto; congruence.
Qed.

Lemma get_notes_step keys : forall w r w1,
  get_notes keys w = (r, w1) ->
  store w1 = store w /\
  (forall ns, r = Ok ns -> Forall2 (fun k n => store w !! k = Some (JsonNote n)) keys ns) /\
  (faults w = [] -> Forall (fun k => exists n, store w !! k = Some (JsonNote n)) keys ->
   exists ns, r = Ok ns /\ faults w1 = []).
Proof.
  induction keys as [|k keys IH]; intros w r w1 H; simpl in H.
  - inversion H; subst. split; [auto|split].
    + intros ns [= <-]. constructor.
    + intros Hf _. eauto.
  - rewrite bind_run in H. destruct (get_note k w) as [r2 w2] eqn:E2.
    destruct (get_note_step _ _ _ _ E2) as [Hs2 [_ [Hok2 Hf2]]].
    destruct r2 as [n| e |]; simpl in H.
    + rewrite bind_run in H. destruct (get_notes keys w2) as [r3 w3] eqn:E3.
      destruct (IH _ _ _ E3) as [Hs3 [Hok3 Hf3]]. rewrite Hs2 in Hok3, Hf3.
      split; [destruct r3; inversion H; subst; congruence|]. split.
      * destruct r3 as [ns'| |]; inversion H; subst; intros ns Hns; try discriminate.
        injection Hns as <-. constructor; auto.
      * intros Hf Hall. inversion Hall as [|? ? [n' Hn'] Hall']; subst.
        destruct (Hf2 Hf n' Hn') as [[= <-] Hw2].
        destruct (Hf3 Hw2 Hall') as [ns [-> Hw3]]. inversion H; subst. eauto.
    + inversion H; subst. split; [auto|]. split; [discriminate|].
      intros Hf Hall. inversion Hall as [|? ? [n' Hn'] _]; subst.
      destruct (Hf2 Hf n' Hn') as [? _]. discriminate.
    + inversion H; subst. split; [auto|]. split; [discriminate|].
      intros Hf Hall. inversion Hall as [|? ? [n' Hn'] _]; subst.
      destruct (Hf2 Hf n' Hn') as [? _]. discriminate.
Qed.

Lemma has_any_tag_spec tag n :
  has_any_tag tag n = true <-> exists t, t ∈ tags n /\ t ∈ tag.
Proof.
  unfold has_any_tag. rewrite existsb_exists. split.
  - intros [t [Ht Hb]]. apply bool_decide_eq_true in Hb.
    exists t. split; [apply list_elem_of_In|]; auto.
  - intros [t [Ht Hb]]. exists t. split; [apply list_elem_of_In; auto|].
    apply bool_decide_eq_true. exact Hb.
Qed.

Lemma get_all_notes_members w ns :
  Forall2 (fun kv n => kv.2 = JsonNote n) (sled_entries (store w)) ns ->
  forall n, n ∈ ns <-> exists k, store w !! k = Some (JsonNote n).
Proof.
  intros HF n. destruct (sled_entries_spec (store w)) as [_ [_ Hin]]. split.
  - intros Hn. destruct (Forall2_elem_r _ _ _ _ HF Hn) as [[k v] [Hkv Hv]].
    simpl in Hv. subst v. exists k. apply Hin. exact Hkv.
  - intros [k Hk]. apply Hin in Hk.
    destruct (Forall2_elem_l _ _ _ _ HF Hk) as [n' [Hn' Hv]]. simpl in Hv.
    injection Hv as ->. exact Hn'.
Qed.

(** X16: [get] never changes the store; without tags it returns, in order, the
    notes stored under the given keys; with tags it returns exactly the stored
    notes carrying at least one of the tags. *)
Theorem get_cmd_results (keys tag : list string) (w : World) :
  store (run_world (get_cmd keys tag) w) = store w /\
  (tag = [] -> forall ns, run_res (get_cmd keys tag) w = Ok ns ->
   Forall2 (fun k n => store w !! k = Some (JsonNote n)) keys ns) /\
  (tag = [] -> faults w = [] ->
   Forall (fun k => exists n, store w !! k = Some (JsonNote n)) keys ->
   exists ns, run_res (get_cmd keys tag) w = Ok ns) /\
  (tag <> [] -> forall ns, run_res (get_cmd keys tag) w = Ok ns ->
   forall n, n ∈ ns <->
     (exists k, store w !! k = Some (JsonNote n)) /\ exists t, t ∈ tags n /\ t ∈ tag).
Proof.
  unfold run_res, run_world, get_cmd.
  destruct (bool_decide_reflect (tag = [])) as [Ht|Ht]; simpl.
  - destruct (get_notes keys w) as [r w1] eqn:E.
    destruct (get_notes_step _ _ _ _ E) as [Hs [Hok Hf]]. simpl.
    split; [exact Hs|]. split; [intros _; exact Hok|]. split.
    + intros _ Hw Hall. destruct (Hf Hw Hall) as [ns [-> _]]. eauto.
    + intros Hn. contradiction.
  - rewrite bind_run. destruct (get_all_notes w) as [r w1] eqn:E.
    destruct (get_all_notes_spec _ _ _ E) as [Hs [_ [Hok _]]].
    destruct r as [all| e |]; simpl.
    + split; [exact Hs|]. split; [intros; contradiction|]. split; [intros; contradiction|].
      intros _ ns [= <-] n. rewrite list_elem_of_filter, has_any_tag_spec.
      rewrite (get_all_notes_members w all (Hok all eq_refl)). tauto.
    + split; [exact Hs|]. split; [intros; contradiction|]. split; [intros; contradiction|].
      intros _ ns Hns. discriminate.
    + split; [exact Hs|]. split; [intros; contradiction|]. split; [intros; contradiction|].
      intros _ ns Hns. discriminate.
Qed.

Lemma prefix_app p s : String.prefix p s = true <-> exists suf, s = p +:+ suf.
Proof.
  revert p. induction s as [|b s IH]; intros [|a p]; simpl.
  - split; [intros _; exists ""; reflexivity|auto].
  - split; [discriminate|]. intros [suf Hs]. discriminate.
  - split; [intros _; exists (String b s); reflexivity|auto].
  - destruct (Ascii.ascii_dec a b) as [->|Hab].
    + rewrite IH. split; intros [suf Hs]; exists suf; [subst; reflexivity|].
      injection Hs as Hs. exact Hs.
    + split; [discriminate|]. intros [suf Hs]. injection Hs as Hs. congruence.
Qed.

Lemma is_match_literal_spec pat s :
  is_match_literal pat s = true <-> exists pre suf, s = pre +:+ pat +:+ suf.
Proof.
  induction s as [|c s IH]; cbn [is_match_literal]; rewrite orb_true_iff, prefix_app.
  - split.
    + intros [[suf Hs]|Hf]; [exists "", suf; exact Hs|discriminate].
    + intros [pre [suf Hs]]. left. destruct pre; [exists suf; exact Hs|discriminate].
  - rewrite IH. split.
    + intros [[suf Hs]|[pre [suf Hs]]].
      * exists "", suf. exact Hs.
      * exists (String c pre), suf. rewrite Hs. reflexivity.
    + intros [pre [suf Hs]]. destruct pre as [|c' pre].
      * left. exists suf. exact Hs.
      * right. injection Hs as <- Hs. exists pre, suf. exact Hs.
Qed.

(** X17: [backlinks k] never changes the store and returns exactly the keys of
    the other stored notes whose content contains the literal text [[[k]]]. *)
Theorem backlinks_results (k : string) (w : World) :
  store (run_world (backlinks_cmd k) w) = store w /\
  (forall ks, run_res (backlinks_cmd k) w = Ok ks ->
   forall k', k' ∈ ks <->
     exists sk n, store w !! sk = Some (JsonNote n) /\ key n = k' /\ k' <> k /\
       exists pre suf, content n = pre +:+ ("[[" +:+ k +:+ "]]") +:+ suf) /\
  (faults w = [] ->
   (forall sk v, store w !! sk = Some v -> exists n, v = JsonNote n) ->
   exists ks, run_res (backlinks_cmd k) w = Ok ks).
Proof.
  unfold run_res, run_world, backlinks_cmd. rewrite bind_run.
  destruct (get_all_notes w) as [r w1] eqn:E.
  destruct (get_all_notes_spec _ _ _ E) as [Hs [_ [Hok Hc]]].
  destruct r as [all| e |]; simpl.
  - split; [exact Hs|]. split.
    + intros ks [= <-] k'. rewrite list_elem_of_fmap. split.
      * intros [n [-> Hn]]. apply list_elem_of_filter in Hn as [[Hne Hm] Hn].
        apply (get_all_notes_members w all (Hok all eq_refl)) in Hn as [sk Hsk].
        exists sk, n. repeat split; auto. apply is_match_literal_spec. exact Hm.
      * intros [sk [n [Hsk [<- [Hne Hm]]]]]. exists n. split; [reflexivity|].
        apply list_elem_of_filter. split.
        -- split; [exact Hne|]. apply is_match_literal_spec. exact Hm.
        -- apply (get_all_notes_members w all (Hok all eq_refl)). eauto.
    + intros _ _. eauto.
  - split; [exact Hs|]. split; [discriminate|].
    intros Hf Hn. destruct (Hc Hf Hn) as [? [? _]]. discriminate.
  - split; [exact Hs|]. split; [discriminate|].
    intros Hf Hn. destruct (Hc Hf Hn) as [? [? _]]. discriminate.
Qed.




(** X20: when [save_note_with_index] fails, the index is unchanged and the store
    either is unchanged or already holds the note; a failure of the index writer
    leaves the note stored but not indexed. *)
Theorem save_with_index_failure_keeps_index (note : Note) (w : World) :
  (run_res (save_note_with_index note) w <> Ok tt ->
   index (run_world (save_note_with_index note) w) = index w /\
   (store (run_world (save_note_with_index note) w) = store w \/
    store (run_world (save_note_with_index note) w) = <[key note := JsonNote note]> (store w))) /\
  (forall fs, faults w = false :: false :: true :: fs ->
   run_res (save_note_with_index note) w = Err (Tantivy "writer") /\
   store (run_world (save_note_with_index note) w) = <[key note := JsonNote note]> (store w) /\
   index (run_world (save_note_with_index note) w) = index w).
Proof.
  destruct w as [s i fs0 cl tk tr]. unfold run_res, run_world. simpl. split.
  - mrun; intros Hne; try (exfalso; apply Hne; reflexivity); auto.
  - intros fs ->. mrun. auto.
Qed.


Lemma add_tags_spec tags0 add_tag :
  (forall x, x ∈ (add_tags tags0 add_tag).1 <-> x ∈ tags0 \/ x ∈ add_tag) /\
  (NoDup tags0 -> NoDup (add_tags tags0 add_tag).1) /\
  ((add_tags tags0 add_tag).2 = false ->
   (add_tags tags0 add_tag).1 = tags0 /\ forall x, x ∈ add_tag -> x ∈ tags0).
Proof.
  unfold add_tags.
  assert (H : forall acc,
    (forall x, x ∈ (foldl (fun acc tag => if decide (tag ∈ acc.1) then acc
                                          else (acc.1 ++ [tag], true)) acc add_tag).1
               <-> x ∈ acc.1 \/ x ∈ add_tag) /\
    (NoDup acc.1 -> NoDup (foldl (fun acc tag => if decide (tag ∈ acc.1) then acc
                                  else (acc.1 ++ [tag], true)) acc add_tag).1) /\
    ((foldl (fun acc tag => if decide (tag ∈ acc.1) then acc
             else (acc.1 ++ [tag], true)) acc add_tag).2 = false ->
     acc.2 = false /\
     (foldl (fun acc tag => if decide (tag ∈ acc.1) then acc
             else (acc.1 ++ [tag], true)) acc add_tag).1 = acc.1 /\
     forall x, x ∈ add_tag -> x ∈ acc.1)).
  { induction add_tag as [|a add IH]; intros acc; simpl.
    - split; [set_solver|]. split; [auto|]. intros H. split; [exact H|]. split; [reflexivity|].
      set_solver.
    - destruct (decide (a ∈ acc.1)) as [Ha|Ha].
      + destruct (IH acc) as [H1 [H2 H3]]. split; [intros x; rewrite H1; set_solver|].
        split; [exact H2|]. intros Hf. destruct (H3 Hf) as [Hb [He Hx]].
        split; [exact Hb|]. split; [exact He|]. set_solver.
      + destruct (IH (acc.1 ++ [a], true)) as [H1 [H2 H3]]. simpl in *.
        split; [intros x; rewrite H1; set_solver|].
        split.
        * intros Hnd. apply H2. apply NoDup_app. split; [exact Hnd|].
          split; [set_solver|]. apply NoDup_singleton.
        * intros Hf. destruct (H3 Hf) as [Hb _]. discriminate. }
  destruct (H (tags0, false)) as [H1 [H2 H3]]. simpl in *.
  split; [exact H1|]. split; [exact H2|]. intros Hf. destruct (H3 Hf) as [_ [He Hx]]. auto.
Qed.

Lemma filter_length_id {A} (P : A -> Prop) `{forall x, Decision (P x)} (l : list A) :
  length (filter P l) = length l -> filter P l = l.
Proof.
  induction l as [|a l IH]; simpl; intros Hl; [reflexivity|].
  rewrite filter_cons in Hl |- *. destruct (decide (P a)) as [Ha|Ha]; simpl in Hl.
  - rewrite IH by lia. reflexivity.
  - pose proof (length_filter P l). lia.
Qed.

Lemma edit_tags_spec tags0 add_tag rm_tag :
  let '(tags1, modified1) := add_tags tags0 add_tag in
  let tags2 := retain_tags tags1 rm_tag in
  (forall x, x ∈ tags2 <-> (x ∈ tags0 \/ x ∈ add_tag) /\ x ∉ rm_tag) /\
  (NoDup tags0 -> NoDup tags2) /\
  (modified1 || negb (length tags2 =? length tags1)%nat = false -> tags2 = tags0).
Proof.
  destruct (add_tags_spec tags0 add_tag) as [H1 [H2 H3]].
  destruct (add_tags tags0 add_tag) as [tags1 modified1]. simpl in *.
  unfold retain_tags. split; [|split].
  - intros x. rewrite list_elem_of_filter, H1. tauto.
  - intros Hnd. apply NoDup_filter. auto.
  - intros Hm. apply orb_false_iff in Hm as [Hm1 Hm2].
    apply negb_false_iff, Nat.eqb_eq in Hm2.
    destruct (H3 Hm1) as [-> _]. apply filter_length_id. exact Hm2.
Qed.

Lemma edit_ok_store k add_tag rm_tag edited w n w' :
  store w !! k = Some (JsonNote n) -> key n = k ->
  edit_cmd k add_tag rm_tag edited w = (Ok tt, w') ->
  (store w' = store w /\ retain_tags (add_tags (tags n) add_tag).1 rm_tag = tags n) \/
  exists n', store w' = <[k := JsonNote n']> (store w) /\
             tags n' = retain_tags (add_tags (tags n) add_tag).1 rm_tag.
Proof.
  intros Hk Hkey H. unfold edit_cmd in H. rewrite bind_run in H.
  destruct (get_note k w) as [r1 w1] eqn:E1.
  destruct (get_note_step _ _ _ _ E1) as [Hs1 [_ [Hok1 _]]].
  destruct r1 as [n0| |]; [|discriminate..].
  rewrite (Hok1 n0 eq_refl) in Hk. injection Hk as <-.
  pose proof (edit_tags_spec (tags n0) add_tag rm_tag) as Hsp.
  destruct (add_tags (tags n0) add_tag) as [tags1 modified1] eqn:Ea. simpl in H, Hsp |- *.
  destruct Hsp as [_ [_ Hsp]].
  destruct (modified1 || _) eqn:Em; rewrite bind_run in H.
  - unfold utc_now in H. simpl in H.
    match type of H with
    | save_note_with_index ?nn ?ww = _ =>
        destruct (save_note_with_index_effect nn ww) as [_ [_ [Hsave _]]];
        unfold run_res, run_world in Hsave; rewrite H in Hsave; simpl in Hsave;
        destruct (Hsave eq_refl) as [Hst _]
    end.
    right. eexists. split; [rewrite Hst; simpl; rewrite Hkey, Hs1; reflexivity|]. reflexivity.
  - destruct edited as [c|]; unfold read_input, log, modify in H; simpl in H; [|discriminate].
    destruct (decide _).
    + rewrite bind_run in H. unfold utc_now in H. simpl in H.
      match type of H with
      | save_note_with_index ?nn ?ww = _ =>
          destruct (save_note_with_index_effect nn ww) as [_ [_ [Hsave _]]];
          unfold run_res, run_world in Hsave; rewrite H in Hsave; simpl in Hsave;
          destruct (Hsave eq_refl) as [Hst _]
      end.
      right. eexists. split; [rewrite Hst; simpl; rewrite Hkey, Hs1; reflexivity|].
      reflexivity.
    + unfold mret, M_ret, ret in H. injection H as <-. left. simpl.
      split; [exact Hs1|]. apply Hsp. reflexivity.
Qed.

(** X21: a successful [edit] stores a note whose tags are the old tags plus the
    added ones minus the removed ones, without introducing duplicates. *)
Theorem edit_tags_outcome (k : string) (add_tag rm_tag : list string)
    (edited : option string) (w : World) (n : Note) :
  store w !! k = Some (JsonNote n) -> key n = k ->
  run_res (edit_cmd k add_tag rm_tag edited) w = Ok tt ->
  exists n', store (run_world (edit_cmd k add_tag rm_tag edited) w) !! k = Some (JsonNote n') /\
    (forall x, x ∈ tags n' <-> (x ∈ tags n \/ x ∈ add_tag) /\ x ∉ rm_tag) /\
    (NoDup (tags n) -> NoDup (tags n')).
Proof.
  intros Hk Hkey Hok. unfold run_res, run_world in *.
  destruct (edit_cmd k add_tag rm_tag edited w) as [r w'] eqn:E. simpl in *. subst r.
  pose proof (edit_tags_spec (tags n) add_tag rm_tag) as Hsp.
  destruct (edit_ok_store _ _ _ _ _ _ _ Hk Hkey E) as [[Hs Ht]|[n' [Hs Ht]]];
    destruct (add_tags (tags n) add_tag) as [tags1 modified1]; simpl in Hsp, Ht;
    destruct Hsp as [Hmem [Hnd _]].
  - exists n. rewrite Hs. split; [exact Hk|]. split; [|auto].
    intros x. rewrite <- Hmem, Ht. reflexivity.
  - exists n'. rewrite Hs, lookup_insert_eq. split; [reflexivity|]. rewrite Ht. auto.
Qed.





Lemma Forall2_notes_length w ns :
  Forall2 (fun kv n => kv.2 = JsonNote n) (sled_entries (store w)) ns ->
  length ns = size (store w).
Proof.
  intros HF. rewrite <- (Forall2_length _ _ _ HF). unfold sled_entries.
  rewrite (Permutation_length (merge_sort_Permutation _ _)). apply length_map_to_list.
Qed.

Lemma sort_le_total sort_by : Total (sort_le sort_by).
Proof.
  intros a b. destruct sort_by; simpl; [apply String.leb_total|lia|lia].
Qed.

Lemma sort_le_trans sort_by : Transitive (sort_le sort_by).
Proof.
  intros a b c. destruct sort_by; simpl; [apply string_leb_trans|lia|lia].
Qed.

(** X23: [list] never changes the store and, on success, returns every stored
    note once, sorted by the chosen order. *)
Theorem list_cmd_sorted_notes (sort_by : SortBy) (w : World) :
  store (run_world (list_cmd sort_by) w) = store w /\
  forall ns, run_res (list_cmd sort_by) w = Ok ns ->
  StronglySorted (sort_le sort_by) ns /\
  length ns = size (store w) /\
  (forall n, n ∈ ns <-> exists k, store w !! k = Some (JsonNote n)).
Proof.
  unfold run_res, run_world, list_cmd. rewrite bind_run.
  destruct (get_all_notes w) as [r w1] eqn:E.
  destruct (get_all_notes_spec _ _ _ E) as [Hs [_ [Hok _]]].
  destruct r as [all| e |]; simpl; (split; [exact Hs|]); [|discriminate..].
  intros ns [= <-]. specialize (Hok all eq_refl). split; [|split].
  - apply StronglySorted_merge_sort; [apply sort_le_trans|apply sort_le_total].
  - rewrite (Permutation_length (merge_sort_Permutation _ _)). apply Forall2_notes_length. exact Hok.
  - intros n. rewrite (merge_sort_Permutation (sort_le sort_by) all).
    apply get_all_notes_members. exact Hok.
Qed.

(** X24: the global [status] overview never changes the store, never succeeds
    while a task is stored, and when it succeeds reports one note per key and
    zero open and zero priority tasks. *)
Theorem status_overview_no_tasks (w : World) :
  store (run_world status_overview w) = store w /\
  (forall k t, store w !! k = Some (JsonTask t) ->
   forall c, run_res status_overview w <> Ok c) /\
  (forall a b c, run_res status_overview w = Ok (a, b, c) ->
   a = size (store w) /\ b = 0%nat /\ c = 0%nat).
Proof.
  unfold run_res, run_world, status_overview. rewrite bind_run.
  destruct (get_all_notes w) as [r w1] eqn:E.
  destruct (get_all_notes_spec _ _ _ E) as [Hs [_ [Hok _]]].
  destruct r as [all| e |]; simpl; [|repeat split; auto; discriminate..].
  specialize (Hok all eq_refl).
  assert (Hnotes : forall k v, store w !! k = Some v -> exists n, v = JsonNote n).
  { intros k v Hkv. destruct (sled_entries_spec (store w)) as [_ [_ Hin]].
    apply Hin in Hkv. destruct (Forall2_elem_l _ _ _ _ Hok Hkv) as [n [_ Hv]].
    simpl in Hv. eauto. }
  rewrite bind_run. destruct (get_all_tasks w1) as [r2 w2] eqn:E2.
  destruct (get_all_tasks_spec _ _ _ E2) as [Hs2 [_ [Hok2 _]]].
  rewrite Hs in Hok2.
  destruct r2 as [ts| e |]; simpl; [|repeat split; try congruence; discriminate..].
  assert (Hts : ts = []).
  { specialize (Hok2 ts eq_refl). destruct ts as [|t ts]; [reflexivity|].
    destruct (Forall2_elem_r _ _ _ t Hok2 ltac:(left)) as [[k v] [Hkv Hv]].
    simpl in Hv. subst v.
    destruct (sled_scan_prefix_spec "tasks/" (store w)) as [_ [_ Hin]].
    apply Hin in Hkv as [_ Hkv]. destruct (Hnotes _ _ Hkv). discriminate. }
  subst ts. split; [congruence|]. split.
  - intros k t Hk. destruct (Hnotes _ _ Hk). discriminate.
  - intros a b c [= <- <- <-]. split; [|auto].
    apply Forall2_notes_length. exact Hok.
Qed.

(** X25: [export] never changes the store and selects exactly the stored notes
    carrying every requested tag (all notes when no tag is given). *)
Theorem export_selects_notes_with_all_tags (tag : list string) (w : World) :
  store (run_world (notes_to_export tag) w) = store w /\
  forall ns, run_res (notes_to_export tag) w = Ok ns ->
  forall n, n ∈ ns <->
    (exists k, store w !! k = Some (JsonNote n)) /\ forall t, t ∈ tag -> t ∈ tags n.
Proof.
  unfold run_res, run_world, notes_to_export. rewrite bind_run.
  destruct (get_all_notes w) as [r w1] eqn:E.
  destruct (get_all_notes_spec _ _ _ E) as [Hs [_ [Hok _]]].
  destruct r as [all| e |]; simpl; (split; [exact Hs|]); [|discriminate..].
  intros ns [= <-] n. specialize (Hok all eq_refl).
  destruct (bool_decide_reflect (tag = [])) as [->|Ht]; simpl.
  - rewrite (get_all_notes_members w all Hok). split; [|tauto].
    intros H. split; [exact H|]. intros t Ht. inversion Ht.
  - rewrite list_elem_of_filter, (get_all_notes_members w all Hok), forallb_forall.
    split.
    + intros [H1 H2]. split; [exact H2|]. intros t Hin.
      apply (bool_decide_eq_true_1 (t ∈ tags n)), H1, list_elem_of_In, Hin.
    + intros [H1 H2]. split; [|exact H1]. intros t Hin.
      apply bool_decide_eq_true_2, H2, list_elem_of_In, Hin.
Qed.

Lemma handle_import_step k c ow w r w1 :
  handle_import k c ow w = (r, w1) ->
  index w1 = index w /\
  (forall k', k' <> k -> store w1 !! k' = store w !! k') /\
  (ow = false -> is_Some (store w !! k) -> store w1 = store w) /\
  (r = Ok tt \/ exists e, r = Err e) /\
  (faults w = [] -> r = Ok tt /\ faults w1 = [] /\ is_Some (store w1 !! k)).
Proof.
  destruct w as [s i fs cl tk tr]. unfold handle_import. simpl.
  destruct (s !! k) as [v|] eqn:E; destruct ow;
    mrun_at E; intros [= <- <-]; simpl;
    (split; [reflexivity|]);
    (split; [intros k' Hk'; rewrite ?lookup_insert_ne by congruence; reflexivity|]);
    (split; [intros; simplify_eq/=; try reflexivity;
             match goal with H : is_Some None |- _ => destruct H; discriminate end|]);
    (split; [eauto|]);
    intros; simplify_eq/=; rewrite ?lookup_insert_eq, ?E; eauto.
Qed.

(** X26: a directory import never touches the index, returns Ok unless a file
    cannot be read, never changes keys outside the imported ones, never
    overwrites existing keys without overwrite, and with no store fault stores
    every imported key. *)
Theorem import_files_outcomes (files : list (string * option string)) (overwrite : bool)
    (w : World) :
  index (run_world (import_files files overwrite) w) = index w /\
  (run_res (import_files files overwrite) w = Ok tt \/
   run_res (import_files files overwrite) w = Err Io) /\
  (forall k, k ∉ files.*1 ->
   store (run_world (import_files files overwrite) w) !! k = store w !! k) /\
  (overwrite = false -> forall k, is_Some (store w !! k) ->
   store (run_world (import_files files overwrite) w) !! k = store w !! k) /\
  (faults w = [] -> Forall (fun f => is_Some f.2) files ->
   run_res (import_files files overwrite) w = Ok tt /\
   forall k, k ∈ files.*1 -> is_Some (store (run_world (import_files files overwrite) w) !! k)).
Proof.
  unfold run_res, run_world. revert w.
  induction files as [|[k c0] files IH]; intros w; simpl.
  - split; [reflexivity|]. split; [left; reflexivity|]. split; [reflexivity|].
    split; [reflexivity|]. intros _ _. split; [reflexivity|]. intros k Hk. inversion Hk.
  - rewrite bind_run. destruct c0 as [c|]; simpl.
    2:{ split; [reflexivity|]. split; [right; reflexivity|]. split; [reflexivity|].
        split; [reflexivity|]. intros _ Hall. inversion Hall as [|? ? [? Hc] _]. discriminate. }
    rewrite bind_run. unfold catch_import.
    destruct (handle_import k c overwrite w) as [r1 w1] eqn:E1.
    destruct (handle_import_step _ _ _ _ _ _ E1) as [Hi1 [Hfr1 [Hov1 [Hr1 Hf1]]]].
    assert (Hstep : (match (r1, w1) with (Err _, w2) => (Ok tt, w2) | r => r end) = (Ok tt, w1)).
    { destruct Hr1 as [-> | [e ->]]; reflexivity. }
    rewrite Hstep. simpl.
    destruct (IH w1) as [Hi [Hr [Hfr [Hov Hf]]]].
    split; [congruence|]. split; [exact Hr|]. split.
    + intros k' Hk'. rewrite Hfr by set_solver. apply Hfr1. set_solver.
    + split.
      * intros Hw k' Hk'. destruct (decide (k' = k)) as [->|Hne].
        -- pose proof (Hov1 Hw Hk') as Hs1.
           rewrite Hov; [rewrite Hs1; reflexivity|exact Hw|rewrite Hs1; exact Hk'].
        -- rewrite <- (Hfr1 k' Hne). apply Hov; [exact Hw|]. rewrite Hfr1 by exact Hne. exact Hk'.
      * intros Hw Hall. inversion Hall as [|? ? _ Hall']; subst.
        destruct (Hf1 Hw) as [_ [Hw1 Hk1]]. destruct (Hf Hw1 Hall') as [Hok Hin].
        split; [exact Hok|]. intros k' Hk'.
        destruct (decide (k' ∈ files.*1)) as [Hin'|Hnin]; [by apply Hin|].
        assert (k' = k) as -> by set_solver. rewrite Hfr by exact Hnin. exact Hk1.
Qed.


Lemma next_id_wraps_witness :
  (0 <= u64_modulus - 1 < u64_modulus) /\
  store (world_with store_counter_max [] []) !! TASK_COUNTER_KEY =
    Some (RawBytes (to_le_bytes (u64_modulus - 1))) /\
  let w := world_with store_counter_max [] [] in
  let nx := if Z.eqb (u64_modulus - 1) (u64_modulus - 1) then 0 else u64_modulus - 1 + 1 in
  (run_res get_next_task_id w = Ok nx /\
   store (run_world get_next_task_id w) !! TASK_COUNTER_KEY = Some (RawBytes (to_le_bytes nx))) \/
  (run_res get_next_task_id w = Err (Sled "update_and_fetch") /\
   store (run_world get_next_task_id w) = store w).
Proof.
  split; [unfold u64_modulus; lia|]. split; [reflexivity|].
  apply next_id_wraps; [unfold u64_modulus; lia|reflexivity].
Defined.

Lemma next_id_panics_on_malformed_counter_witness :
  store (world_with store_note_at_counter [] []) !! TASK_COUNTER_KEY = Some (JsonNote note_n1) /\
  (forall bs, JsonNote note_n1 = RawBytes bs -> length bs <> 8%nat) /\
  (run_res get_next_task_id (world_with store_note_at_counter [] []) = Panic \/
   run_res get_next_task_id (world_with store_note_at_counter [] []) =
     Err (Sled "update_and_fetch")) /\
  store (run_world get_next_task_id (world_with store_note_at_counter [] [])) =
    store (world_with store_note_at_counter [] []).
Proof.
  split; [reflexivity|]. split; [intros bs H; discriminate H|].
  apply (next_id_panics_on_malformed_counter _ (JsonNote note_n1));
    [reflexivity|intros bs H; discriminate H].
Defined.

Lemma save_task_keeps_other_ids_witness :
  0 <= id task_t1 /\ 0 <= 2 /\ 2 <> id task_t1 /\
  store (run_world (save_task task_t1) (world_with store_note_task [] [])) !! task_key 2 =
    store (world_with store_note_task [] []) !! task_key 2 /\
  (run_res (save_task task_t1) (world_with store_note_task [] []) = Ok tt ->
   store (run_world (save_task task_t1) (world_with store_note_task [] [])) !! task_key (id task_t1)
     = Some (JsonTask task_t1)).
Proof.
  split; [simpl; lia|]. split; [lia|]. split; [simpl; lia|].
  apply save_task_keeps_other_ids; simpl; lia.
Defined.

Lemma task_save_clobbers_note_witness :
  key note_at_task_key = task_key (id task_t1) /\
  faults (world_with ∅ [] []) = [] /\
  run_res (save_note note_at_task_key ;; save_task task_t1 ;; get_note (key note_at_task_key))
    (world_with ∅ [] []) = Err SerdeJson.
Proof.
  split; [vm_compute; reflexivity|]. split; [reflexivity|].
  apply task_save_clobbers_note; [vm_compute; reflexivity|reflexivity].
Defined.

Lemma task_add_without_note_witness :
  (forall n, store (world_with store_n1 [] []) !! "n2" <> Some (JsonNote n)) /\
  (forall a, run_res (task_add_cmd "n2" "write tests") (world_with store_n1 [] []) <> Ok a) /\
  store (run_world (task_add_cmd "n2" "write tests") (world_with store_n1 [] [])) =
    store (world_with store_n1 [] []).
Proof.
  split; [intros n; vm_compute; discriminate|].
  apply task_add_without_note. intros n. vm_compute. discriminate.
Defined.

Lemma task_add_stores_open_task_witness :
  store (world_with store_n1 [] []) !! "n1" = Some (JsonNote note_n1) /\
  counter_at 0 (world_with store_n1 [] []) /\ 0 <= 0 /\ 0 + 1 < u64_modulus /\
  faults (world_with store_n1 [] []) = [] /\
  run_res (task_add_cmd "n1" "write tests") (world_with store_n1 [] []) = Ok tt /\
  store (run_world (task_add_cmd "n1" "write tests") (world_with store_n1 [] [])) =
    <[task_key (0 + 1) := JsonTask (mkTask (0 + 1) "n1" "write tests" Open
                                      (clock (world_with store_n1 [] [])
                                             (ticks (world_with store_n1 [] []))))]>
      (<[TASK_COUNTER_KEY := RawBytes (to_le_bytes (0 + 1))]> (store (world_with store_n1 [] []))).
Proof.
  split; [reflexivity|]. split; [left; split; reflexivity|].
  split; [lia|]. split; [unfold u64_modulus; lia|]. split; [reflexivity|].
  apply (task_add_stores_open_task _ _ _ note_n1 0);
    [reflexivity|left; split; reflexivity|lia|unfold u64_modulus; lia|reflexivity].
Defined.



Lemma edit_tags_outcome_witness :
  store (world_with store_n1 [note_doc note_n1] []) !! "n1" = Some (JsonNote note_n1) /\
  key note_n1 = "n1" /\
  run_res (edit_cmd "n1" ["y"] ["x"] None) (world_with store_n1 [note_doc note_n1] []) = Ok tt /\
  exists n', store (run_world (edit_cmd "n1" ["y"] ["x"] None)
                              (world_with store_n1 [note_doc note_n1] [])) !! "n1" = Some (JsonNote n') /\
    (forall x, x ∈ tags n' <-> (x ∈ tags note_n1 \/ x ∈ ["y"]) /\ x ∉ ["x"]) /\
    (NoDup (tags note_n1) -> NoDup (tags n')).
Proof.
  split; [reflexivity|]. split; [reflexivity|]. split; [vm_compute; reflexivity|].
  apply edit_tags_outcome; [reflexivity|reflexivity|vm_compute; reflexivity].
Defined.

